(** * jaws2.py: the memory-pressure tool, embedded and verified

    The development follows [src/jaws2.py].  The program is embedded as a
    small-step machine over the statements of [main], [Jaws.run] and
    [Jaws.random_access]; the collaborators it consumes (total memory, page
    size, the outcome of [mmap], the resident-set size and the random source)
    are the fields of a [host].  Python's binary64 arithmetic, which the size
    computation of [Jaws.__init__] goes through, is the IEEE 754 specification
    of the Standard Library ([SpecFloat]) at precision 53. *)

From Stdlib Require Import ZArith Lia Lqa Bool String List QArith.
From Stdlib Require Import SpecFloat.
From stdpp Require Import gmap.

Local Open Scope Z_scope.

(** ** Python exceptions and results *)

Inductive exn :=
| SystemExit (code : Z)
| KeyboardInterrupt
| OverflowError
| ZeroDivisionError
| ValueError
| IndexError
| TypeError
| AttributeError
| BufferError
| OSError.

Inductive result (A : Type) :=
| Ok (a : A)
| Raise (e : exn).
Arguments Ok {A} a.
Arguments Raise {A} e.

Definition bind {A B} (r : result A) (k : A -> result B) : result B :=
  match r with
  | Ok a => k a
  | Raise e => Raise e
  end.

Notation "'let*' x ':=' r 'in' k" := (bind r (fun x => k))
  (at level 10, x name, r at level 100, k at level 200).

(** ** binary64 arithmetic as Python performs it *)

Module Float.

Definition prec : Z := 53.
Definition emax : Z := 1024.

(** [float(n)] for an [int]: correctly rounded (half to even),
    [OverflowError] when [n] is too large for a double. *)
Definition of_int (n : Z) : result spec_float :=
  match binary_normalize prec emax n 0 false with
  | S754_infinity _ => Raise OverflowError
  | f => Ok f
  end.

(** [a / b] on two [int]s (true division).  Both operands of the program
    are below 2^53, where their conversion is exact and the IEEE quotient
    is the correctly rounded [a / b]. *)
Definition int_truediv (a b : Z) : result spec_float :=
  if b =? 0 then Raise ZeroDivisionError
  else let* fa := of_int a in let* fb := of_int b in Ok (SFdiv prec emax fa fb).

(** [n * f] with [n] an [int] and [f] a [float]: [n] is converted first. *)
Definition int_mul (n : Z) (f : spec_float) : result spec_float :=
  let* fn := of_int n in Ok (SFmul prec emax fn f).

(** [int(f)]: truncation toward zero. *)
Definition to_int (f : spec_float) : result Z :=
  match f with
  | S754_zero _ => Ok 0
  | S754_infinity _ => Raise OverflowError
  | S754_nan => Raise ValueError
  | S754_finite s m e =>
      let a := if e <? 0 then Z.pos m / 2 ^ (- e) else Z.pos m * 2 ^ e in
      Ok (if s then - a else a)
  end.

End Float.

(** ** The collaborators *)

Record host := {
  total_memory : Z;            (* psutil.virtual_memory().total *)
  getpagesize : Z;             (* resource.getpagesize() *)
  mmap_error : option string;  (* the error mmap.mmap raises, if it does *)
  rss : Z;                     (* psutil.Process(...).memory_info().rss *)
  draws : nat -> Z             (* the raw outputs of the random source *)
}.

(** The random source is a collaborator: [draws] lists its raw outputs, one
    per call, and the three functions below map a raw output into the range
    the library documents for the call (every value of the range is the
    image of some raw output).  Times are rationals.

    [random.randint(a, b)], on the raw draw [r]: [a <= N <= b], and
    [ValueError] on an empty range. *)
Definition randint (r : Z) (a b : Z) : result Z :=
  if b <? a then Raise ValueError else Ok (a + r mod (b - a + 1)).

(** [random.random()]: a multiple of 2^-53 in [0, 1). *)
Definition random (r : Z) : Q := Qmake (r mod 2 ^ 53) (2 ^ 53)%positive.

(** [random.uniform(a, b)] is [a + (b - a) * random()]: [a <= N <= b]. *)
Definition uniform (r : Z) (a b : Q) : Q := (a + (b - a) * random r)%Q.

(** ** What the process does, as seen from outside *)

Inductive event :=
| EPrint (msg : string)
| EUsage                              (* parser.print_help() *)
| EMmap (len : Z) (ok : bool)         (* mmap.mmap(-1, len, MAP_LOCKED ...) *)
| EMunmap (len : Z)                   (* the unmapping done by mmap.close() *)
| EReport (resident requested : Z)    (* report_utilization *)
| ERandInt (lo hi r : Z)              (* r = random.randint(lo, hi) *)
| EUniform (lo hi d : Q)              (* d = random.uniform(lo, hi) *)
| EWrite (offset v : Z)               (* buffer[offset] = v *)
| ERead (offset v : Z)                (* v = buffer[offset] *)
| ESleep (d : Q).                     (* time.sleep(d) *)

(** ** The mmap object *)

Record mmap := {
  mm_len : Z;
  mm_closed : bool;
  mm_exports : nat;
  mm_data : gmap Z Z      (* the bytes written so far; all others are zero *)
}.

Definition mmap_new (h : host) (len : Z) : result mmap :=
  match mmap_error h with
  | Some _ => Raise OSError
  | None =>
      if len <? 0 then Raise OverflowError
      else if len =? 0 then Raise OSError
      else Ok {| mm_len := len; mm_closed := false; mm_exports := 0%nat; mm_data := ∅ |}
  end.

(** The index check shared by [buffer[i]] and [buffer[i] = v]: a negative
    index counts from the end. *)
Definition mmap_index (m : mmap) (i : Z) : result Z :=
  if mm_closed m then Raise ValueError
  else
    let i' := if i <? 0 then i + mm_len m else i in
    if (i' <? 0) || (mm_len m <=? i') then Raise IndexError else Ok i'.

Definition mmap_getitem (m : mmap) (i : Z) : result Z :=
  let* i' := mmap_index m i in Ok (default 0 (mm_data m !! i')).

Definition mmap_setitem (m : mmap) (i v : Z) : result mmap :=
  let* i' := mmap_index m i in
  if (v <? 0) || (255 <? v) then Raise ValueError
  else Ok {| mm_len := mm_len m; mm_closed := mm_closed m;
             mm_exports := mm_exports m; mm_data := <[i' := v]> (mm_data m) |}.

(** [m.close()]: the events it causes, or the exception. *)
Definition mmap_close (m : mmap) : result (list event) :=
  if (0 <? mm_exports m)%nat then Raise BufferError
  else Ok (if mm_closed m then [] else [EMunmap (mm_len m)]).

(** ** The Jaws object *)

Record Jaws := {
  percentage : Z;
  static_mode : bool;
  buffer : option mmap;
  buffer_size : Z;
  page_size : Z
}.

Definition set_buffer (self : Jaws) (b : option mmap) : Jaws :=
  {| percentage := percentage self; static_mode := static_mode self;
     buffer := b; buffer_size := buffer_size self; page_size := page_size self |}.

(** Lines 22-25 of [Jaws.__init__]: the value left in [self.buffer_size]. *)
Definition computed_buffer_size (pct total page : Z) : result Z :=
  let* frac := Float.int_truediv pct 100 in
  let* prod := Float.int_mul total frac in
  let* bytes := Float.to_int prod in
  if page =? 0 then Raise ZeroDivisionError
  else Ok ((bytes / page) * page).

Definition zero_size_msg : string :=
  "Error: Calculated buffer size is zero.  Increase percentage.".

Definition Jaws_init (h : host) (pct : Z) (static : bool)
  : list event * result Jaws :=
  match computed_buffer_size pct (total_memory h) (getpagesize h) with
  | Raise e => ([], Raise e)
  | Ok bytes =>
      if bytes =? 0 then ([EPrint zero_size_msg], Raise (SystemExit 1))
      else ([], Ok {| percentage := pct; static_mode := static; buffer := None;
                      buffer_size := bytes; page_size := getpagesize h |})
  end.

Definition create_buffer (h : host) (self : Jaws) : list event * result Jaws :=
  match mmap_new h (buffer_size self) with
  | Ok m => ([EMmap (buffer_size self) true], Ok (set_buffer self (Some m)))
  | Raise _ =>
      ([EMmap (buffer_size self) false;
        EPrint ("Error creating buffer: " ++ default EmptyString (mmap_error h))],
       Raise (SystemExit 1))
  end.

(** [bool(self.buffer)]: [None] is false, an mmap is true when its length is
    not zero, and taking the length of a closed mmap raises. *)
Definition truthy (b : option mmap) : result bool :=
  match b with
  | None => Ok false
  | Some m => if mm_closed m then Raise ValueError else Ok (negb (mm_len m =? 0))
  end.

Definition cleanup (self : Jaws) : list event * result Jaws :=
  match truthy (buffer self), buffer self with
  | Raise e, _ => ([], Raise e)
  | Ok true, Some m =>
      match mmap_close m with
      | Ok evs => (evs ++ [EPrint "Memory buffer released."], Ok (set_buffer self None))
      | Raise _ => ([EPrint "Error releasing buffer: cannot close exported pointers exist"], Ok (set_buffer self None))
      end
  | Ok _, _ => ([], Ok self)
  end.

Definition report_utilization (h : host) (self : Jaws) : list event :=
  [EReport (rss h) (buffer_size self)].

(** ** main: the parsed command line and the tier selection *)

(** The namespace [parser.parse_args()] returns ([--help] never reaches it:
    argparse prints the usage and exits on its own). *)
Record Namespace := {
  low : bool;
  mid : bool;
  high : bool;
  static : bool
}.

(** Lines 139-152 of [main]. *)
Definition select_percentage (args : Namespace) : list event * result Z :=
  if negb (low args || mid args || high args) then
    ([EPrint "Error: Must specify one of -low, -mid, or -high."; EUsage],
     Raise (SystemExit 1))
  else if low args then ([], Ok 30)
  else if mid args then ([], Ok 50)
  else if high args then ([], Ok 75)
  else ([EPrint "Error: Invalid memory option."], Raise (SystemExit 1)).

(** The tier selection as the specification words it, "last matched wins via
    sequential branching": one [if] per flag, a later match overwriting an
    earlier one. *)
Definition last_matched_wins (args : Namespace) : option Z :=
  let p0 : option Z := None in
  let p1 := if low args then Some 30 else p0 in
  let p2 := if mid args then Some 50 else p1 in
  if high args then Some 75 else p2.

(** ** The process as a machine *)

Inductive phase := Primary | Secondary.

(** [randint] bounds of the burst count and [uniform] bounds of the pause
    that follows, per phase (lines 54 and 65, lines 68 and 75). *)
Definition burst_bounds (ph : phase) : Z * Z :=
  match ph with Primary => (5, 20) | Secondary => (1, 5) end.

Definition pause_bounds (ph : phase) : Q * Q :=
  match ph with
  | Primary => (Qmake 1 100, Qmake 1 5)
  | Secondary => (Qmake 1 10, Qmake 3 2)
  end.

Definition next_phase (ph : phase) : phase :=
  match ph with Primary => Secondary | Secondary => Primary end.

Inductive outcome :=
| Exited (code : Z)
| Uncaught (e : exn).

(** Program points.  A signal is delivered between two of them. *)
Inductive label :=
| L_parse                                   (* main 137-152 *)
| L_construct (pct : Z)                     (* main 155 *)
| L_signal                                  (* main 156 *)
| L_create                                  (* run 97 *)
| L_report                                  (* run 98 *)
| L_mode                                    (* run 100, 103 *)
| L_enter                                   (* random_access 46-50 *)
| L_burst (ph : phase)                      (* 54, 68: draw the count *)
| L_offset (ph : phase) (k : nat)           (* 55, 69: k accesses left *)
| L_write (ph : phase) (k : nat) (offset : Z)   (* 57-58, 70-71 *)
| L_read (ph : phase) (k : nat) (offset : Z)    (* 61-62, 72-73 *)
| L_pause (ph : phase)                      (* 65, 75 *)
| L_idle                                    (* run 105-106 *)
| L_cleanup                                 (* run 110 *)
| L_halt (o : outcome).

Record state := {
  pc : label;
  jaws_instance : option Jaws;   (* the module global *)
  sigint_handler : bool;         (* signal_handler is installed for SIGINT *)
  cursor : nat;                  (* raw draws consumed so far *)
  trace : list event             (* oldest first *)
}.

Definition initial : state :=
  {| pc := L_parse; jaws_instance := None; sigint_handler := false;
     cursor := 0%nat; trace := [] |}.

Definition goto (l : label) (evs : list event) (s : state) : state :=
  {| pc := l; jaws_instance := jaws_instance s;
     sigint_handler := sigint_handler s; cursor := cursor s;
     trace := trace s ++ evs |}.

Definition set_instance (j : Jaws) (s : state) : state :=
  {| pc := pc s; jaws_instance := Some j;
     sigint_handler := sigint_handler s; cursor := cursor s;
     trace := trace s |}.

Definition install_handler (s : state) : state :=
  {| pc := pc s; jaws_instance := jaws_instance s;
     sigint_handler := true; cursor := cursor s; trace := trace s |}.

Definition consume (s : state) : state :=
  {| pc := pc s; jaws_instance := jaws_instance s;
     sigint_handler := sigint_handler s; cursor := S (cursor s);
     trace := trace s |}.

(** An exception nobody catches ends the process: [SystemExit] with its
    code, anything else with a traceback. *)
Definition propagate (e : exn) (evs : list event) (s : state) : state :=
  goto (L_halt (match e with SystemExit c => Exited c | _ => Uncaught e end)) evs s.

(** One guarded write (lines 57-58) and one guarded read (lines 61-62). *)
Definition guarded_write (self : Jaws) (offset r : Z)
  : list event * result (Jaws * bool) :=
  if offset <? buffer_size self then
    match randint r 0 255 with
    | Raise e => ([], Raise e)
    | Ok v =>
        match buffer self with
        | None => ([ERandInt 0 255 v], Raise TypeError)
        | Some m =>
            match mmap_setitem m offset v with
            | Raise e => ([ERandInt 0 255 v], Raise e)
            | Ok m' => ([ERandInt 0 255 v; EWrite offset v],
                        Ok (set_buffer self (Some m'), true))
            end
        end
    end
  else ([], Ok (self, false)).

Definition guarded_read (self : Jaws) (offset : Z) : list event * result unit :=
  if offset <? buffer_size self then
    match buffer self with
    | None => ([], Raise TypeError)
    | Some m =>
        match mmap_getitem m offset with
        | Raise e => ([], Raise e)
        | Ok v => ([ERead offset v], Ok tt)
        end
    end
  else ([], Ok tt).

(** The statements of [run] and [random_access], on the instance [self]. *)
Definition step_self (h : host) (self : Jaws) (s : state) : state :=
  let r := draws h (cursor s) in
  match pc s with
  | L_create =>
      match create_buffer h self with
      | (evs, Ok self') => set_instance self' (goto L_report evs s)
      | (evs, Raise e) => propagate e evs s
      end
  | L_report => goto L_mode (report_utilization h self) s
  | L_mode =>
      if negb (static_mode self) then goto L_enter [] s
      else goto L_idle [EPrint "Static buffer created.  Press Ctrl-C to exit."] s
  | L_enter =>
      match truthy (buffer self) with
      | Raise e => propagate e [] s
      | Ok false => goto L_cleanup [EPrint "Error: Buffer not created."] s
      | Ok true =>
          goto (L_burst Primary)
               [EPrint "Starting random memory access. Press Ctrl+C to exit."] s
      end
  | L_burst ph =>
      let '(lo, hi) := burst_bounds ph in
      match randint r lo hi with
      | Raise e => propagate e [] s
      | Ok n => consume (goto (L_offset ph (Z.to_nat n)) [ERandInt lo hi n] s)
      end
  | L_offset ph O => goto (L_pause ph) [] s
  | L_offset ph (S k) =>
      match randint r 0 (buffer_size self - 1) with
      | Raise e => propagate e [] s
      | Ok offset =>
          consume (goto (L_write ph k offset)
                        [ERandInt 0 (buffer_size self - 1) offset] s)
      end
  | L_write ph k offset =>
      match guarded_write self offset r with
      | (evs, Raise e) => propagate e evs s
      | (evs, Ok (self', drew)) =>
          let s' := set_instance self' (goto (L_read ph k offset) evs s) in
          if drew then consume s' else s'
      end
  | L_read ph k offset =>
      match guarded_read self offset with
      | (evs, Raise e) => propagate e evs s
      | (evs, Ok _) => goto (L_offset ph k) evs s
      end
  | L_pause ph =>
      let '(lo, hi) := pause_bounds ph in
      let d := uniform r lo hi in
      consume (goto (L_burst (next_phase ph)) [EUniform lo hi d; ESleep d] s)
  | L_idle => goto L_idle [ESleep (Qmake 1 1)] s
  | L_cleanup =>
      match cleanup self with
      | (evs, Ok self') => set_instance self' (goto (L_halt (Exited 0)) evs s)
      | (evs, Raise e) => propagate e evs s
      end
  | _ => s
  end.

(** One statement of the program. *)
Definition step (h : host) (args : Namespace) (s : state) : state :=
  match pc s with
  | L_halt _ => s
  | L_parse =>
      match select_percentage args with
      | (evs, Ok pct) => goto (L_construct pct) evs s
      | (evs, Raise e) => propagate e evs s
      end
  | L_construct pct =>
      match Jaws_init h pct (static args) with
      | (evs, Ok j) => set_instance j (goto L_signal evs s)
      | (evs, Raise e) => propagate e evs s
      end
  | L_signal => install_handler (goto L_create [] s)
  | _ =>
      match jaws_instance s with
      | None => propagate AttributeError [] s
      | Some self => step_self h self s
      end
  end.

Fixpoint run (h : host) (args : Namespace) (n : nat) (s : state) : state :=
  match n with
  | O => s
  | S n' => run h args n' (step h args s)
  end.

(** ** SIGINT *)

Definition ctrl_c_msg : string :=
  String (Ascii.ascii_of_nat 10) "Ctrl+C detected. Exiting...".

(** Lines 114-119: the handler [main] installs. *)
Definition signal_handler (s : state) : state :=
  let evs := [EPrint ctrl_c_msg] in
  match jaws_instance s with
  | None => propagate (SystemExit 0) evs s
  | Some j =>
      match cleanup j with
      | (evs', Ok j') => set_instance j' (propagate (SystemExit 0) (evs ++ evs') s)
      | (evs', Raise e) => propagate e (evs ++ evs') s
      end
  end.

(** Whether the program point lies inside a [try] whose handler is
    [except KeyboardInterrupt: pass] (lines 51-77 and 104-108); both
    handlers fall through to the [cleanup] of line 110. *)
Definition in_interrupt_guard (l : label) : bool :=
  match l with
  | L_burst _ | L_offset _ _ | L_write _ _ _ | L_read _ _ _ | L_pause _
  | L_idle => true
  | _ => false
  end.

(** Python's default disposition of SIGINT: raise [KeyboardInterrupt] at the
    current program point. *)
Definition default_int_handler (s : state) : state :=
  if in_interrupt_guard (pc s) then goto L_cleanup [] s
  else propagate KeyboardInterrupt [] s.

(** The arrival of SIGINT at the current program point. *)
Definition deliver_sigint (s : state) : state :=
  match pc s with
  | L_halt _ => s
  | _ => if sigint_handler s then signal_handler s else default_int_handler s
  end.

(** ** Observations on a trace *)

(** The regions the process holds: successful mappings less unmappings. *)
Fixpoint mapped (tr : list event) : Z :=
  match tr with
  | [] => 0
  | EMmap _ true :: tr' => 1 + mapped tr'
  | EMunmap _ :: tr' => mapped tr' - 1
  | _ :: tr' => mapped tr'
  end.

Definition is_access (e : event) : bool :=
  match e with
  | EWrite _ _ | ERead _ _ => true
  | _ => false
  end.

Definition is_mmap (e : event) : bool :=
  match e with
  | EMmap _ _ => true
  | _ => false
  end.

Definition access_in_bounds (bytes : Z) (e : event) : Prop :=
  match e with
  | EWrite offset _ | ERead offset _ => 0 <= offset < bytes
  | _ => True
  end.

(** One access of a burst, as lines 55-62 emit it. *)
Definition access_events (bytes offset v : Z) : list event :=
  [ERandInt 0 (bytes - 1) offset; ERandInt 0 255 v; EWrite offset v; ERead offset v].

(** [burst_events bytes n evs]: [evs] is [n] accesses, one after the other. *)
Inductive burst_events (bytes : Z) : nat -> list event -> Prop :=
| burst_nil : burst_events bytes 0 []
| burst_cons n offset v evs :
    0 <= offset < bytes -> 0 <= v <= 255 ->
    burst_events bytes n evs ->
    burst_events bytes (S n) (access_events bytes offset v ++ evs).

Definition succeeded (s : state) : Prop := pc s = L_halt (Exited 0).

(** ** Invariants of the machine *)

Definition live (j : Jaws) (m : mmap) : Prop :=
  buffer j = Some m /\ mm_closed m = false /\ mm_exports m = 0%nat /\
  mm_len m = buffer_size j /\ 0 < buffer_size j.

Definition fresh (args : Namespace) (j : Jaws) : Prop :=
  buffer j = None /\ static_mode j = static args.

Definition no_access (tr : list event) : Prop :=
  Forall (fun e => is_access e = false) tr.

(** Events that neither touch the region nor map or unmap it. *)
Definition quiet (e : event) : bool :=
  match e with
  | EPrint _ | EUsage | EReport _ _ | ERandInt _ _ _ | EUniform _ _ _
  | ESleep _ => true
  | _ => false
  end.

(** Every read of the trace comes right after a write of the value it
    returns, at the same offset; [prev] is the event before the trace. *)
Fixpoint reads_follow (prev : option event) (tr : list event) : Prop :=
  match tr with
  | [] => True
  | e :: tr' =>
      match e with
      | ERead offset v => prev = Some (EWrite offset v)
      | _ => True
      end /\ reads_follow (Some e) tr'
  end.

Definition last_or (prev : option event) (tr : list event) : option event :=
  match last tr with
  | Some e => Some e
  | None => prev
  end.

Definition label_inv (l : label) (j : Jaws) (m : mmap) (tr : list event) : Prop :=
  match l with
  | L_write _ _ offset => static_mode j = false /\ 0 <= offset < buffer_size j
  | L_read _ _ offset =>
      static_mode j = false /\ 0 <= offset < buffer_size j /\
      exists v, mmap_getitem m offset = Ok v /\ last tr = Some (EWrite offset v)
  | L_enter | L_burst _ | L_offset _ _ | L_pause _ => static_mode j = false
  | L_idle => static_mode j = true
  | _ => True
  end.

(** What holds while the region is mapped. *)
Definition late_inv (args : Namespace) (l : label) (j : Jaws) (m : mmap)
    (tr : list event) : Prop :=
  live j m /\ static_mode j = static args /\ mapped tr = 1 /\
  Forall (access_in_bounds (buffer_size j)) tr /\
  reads_follow None tr /\
  (static args = true -> mm_data m = ∅ /\ no_access tr) /\
  label_inv l j m tr.

(** How a run that no signal interrupts can end: only before a region is
    mapped, with status 1 or with an error of the size computation. *)
Definition startup_outcome (o : outcome) : Prop :=
  match o with
  | Exited c => c = 1
  | Uncaught e => e = OverflowError \/ e = ZeroDivisionError \/ e = ValueError
  end.

(** The invariant of the runs of [main] that no signal interrupts. *)
Definition inv (args : Namespace) (s : state) : Prop :=
  match pc s with
  | L_parse | L_construct _ =>
      jaws_instance s = None /\ sigint_handler s = false /\ trace s = []
  | L_signal =>
      sigint_handler s = false /\ trace s = [] /\
      exists j, jaws_instance s = Some j /\ fresh args j
  | L_create =>
      sigint_handler s = true /\ trace s = [] /\
      exists j, jaws_instance s = Some j /\ fresh args j
  | L_cleanup => False
  | L_halt o =>
      startup_outcome o /\ mapped (trace s) = 0 /\ no_access (trace s) /\
      forall j, jaws_instance s = Some j -> buffer j = None
  | l =>
      sigint_handler s = true /\
      exists j m, jaws_instance s = Some j /\ late_inv args l j m (trace s)
  end.

(** Program points at which the region is mapped. *)
Definition mapped_point (l : label) : bool :=
  match l with
  | L_report | L_mode | L_enter | L_burst _ | L_offset _ _ | L_write _ _ _
  | L_read _ _ _ | L_pause _ | L_idle => true
  | _ => false
  end.

(** Program points that come after line 156 of [main], where
    [signal_handler] is installed. *)
Definition handled_point (l : label) : bool :=
  match l with
  | L_parse | L_construct _ | L_signal | L_halt _ => false
  | _ => true
  end.

(** Concrete hosts and command lines, for running the machine. *)
Definition example_host : host :=
  {| total_memory := 100000; getpagesize := 4096; mmap_error := None;
     rss := 40000; draws := fun n => Z.of_nat n * 7919 + 13 |}.

Definition low_args : Namespace :=
  {| low := true; mid := false; high := false; static := false |}.

Definition low_static_args : Namespace :=
  {| low := true; mid := false; high := false; static := true |}.

Definition low_high_args : Namespace :=
  {| low := true; mid := false; high := true; static := false |}.

(** The handle states [cleanup] can meet: never acquired or already
    released ([None]), or an mmap that is still open. *)
Definition handle_valid (j : Jaws) : Prop :=
  match buffer j with
  | None => True
  | Some m => mm_closed m = false
  end.

(** A host whose 30% is less than one page. *)
Definition tiny_host : host :=
  {| total_memory := 100; getpagesize := 4096; mmap_error := None;
     rss := 40000; draws := fun n => Z.of_nat n |}.

(** ** Further observations and invariants *)

(** Events of the access and idle phase other than the accesses. *)
Definition loop_event (e : event) : bool :=
  match e with
  | EPrint _ | ERandInt _ _ _ | EUniform _ _ _ | ESleep _ => true
  | _ => false
  end.

Definition run_event (e : event) : bool := loop_event e || is_access e.

(** The bytes the writes of a trace leave behind, over [data]. *)
Fixpoint replay (tr : list event) (data : gmap Z Z) : gmap Z Z :=
  match tr with
  | [] => data
  | EWrite offset v :: tr' => replay tr' (<[offset := v]> data)
  | _ :: tr' => replay tr' data
  end.

Definition byte_event (e : event) : Prop :=
  match e with
  | EWrite _ v | ERead _ v => 0 <= v <= 255
  | _ => True
  end.

(** The instance of [example_host] after the first write of a Dynamic run. *)
Definition example_region : mmap :=
  {| mm_len := 28672; mm_closed := false; mm_exports := 0%nat;
     mm_data := <[7932 := 235]> ∅ |}.

Definition example_instance : Jaws :=
  {| percentage := 30; static_mode := false; buffer := Some example_region;
     buffer_size := 28672; page_size := 4096 |}.

(** The ways a run that no signal interrupts can end, each with all it has
    printed and attempted by then. *)
Inductive startup_failure (h : host) : outcome -> list event -> Prop :=
| fail_usage :
    startup_failure h (Exited 1)
      [EPrint "Error: Must specify one of -low, -mid, or -high."; EUsage]
| fail_zero_size : startup_failure h (Exited 1) [EPrint zero_size_msg]
| fail_size_error e :
    e = OverflowError \/ e = ZeroDivisionError \/ e = ValueError ->
    startup_failure h (Uncaught e) []
| fail_mmap len :
    startup_failure h (Exited 1)
      [EMmap len false;
       EPrint ("Error creating buffer: " ++ default EmptyString (mmap_error h))].

(** What the trace and the region look like while the region is mapped. *)
Definition mapped_shape (h : host) (s : state) : Prop :=
  exists j m rest,
    jaws_instance s = Some j /\ buffer j = Some m /\
    trace s = EMmap (buffer_size j) true :: rest /\
    (pc s = L_report -> rest = []) /\
    (pc s <> L_report ->
     exists rest', rest = EReport (rss h) (buffer_size j) :: rest' /\
                   Forall (fun e => run_event e = true) rest') /\
    mm_data m = replay (trace s) ∅ /\
    Forall byte_event (trace s).

Definition shape_inv (h : host) (s : state) : Prop :=
  match pc s with
  | L_halt o => startup_failure h o (trace s)
  | l => mapped_point l = true -> mapped_shape h s
  end.

(** A float that is not negative: zero, infinity and finite values carry
    the positive sign. *)
Definition unsigned (f : spec_float) : Prop :=
  match f with
  | S754_zero s | S754_infinity s | S754_finite s _ _ => s = false
  | S754_nan => True
  end.



(** * Proofs *)

(** ** binary64: rounding to nearest and the tier products *)

Lemma digits2_log2 (p : positive) : Z.pos (digits2_pos p) = Z.log2 (Z.pos p) + 1.
Proof.
  assert (Hs : forall q, digits2_pos q = Pos.size q) by (induction q; simpl; congruence).
  rewrite Hs. destruct p; simpl; lia.
Qed.

Lemma digits2_bounds (p : positive) :
  2 ^ (Z.pos (digits2_pos p) - 1) <= Z.pos p < 2 ^ Z.pos (digits2_pos p).
Proof.
  rewrite digits2_log2.
  pose proof (Z.log2_spec (Z.pos p) ltac:(lia)) as H.
  replace (Z.log2 (Z.pos p) + 1 - 1) with (Z.log2 (Z.pos p)) by lia.
  replace (Z.log2 (Z.pos p) + 1) with (Z.succ (Z.log2 (Z.pos p))) by lia.
  exact H.
Qed.

Lemma digits2_unique (p : positive) (d : Z) :
  2 ^ (d - 1) <= Z.pos p < 2 ^ d -> Z.pos (digits2_pos p) = d.
Proof.
  intros [Hlo Hhi]. rewrite digits2_log2.
  assert (0 < d).
  { destruct (Z_lt_le_dec 0 d) as [|Hd]; [assumption|].
    destruct (Z.eq_dec d 0) as [->|]; [simpl in Hhi; lia|].
    rewrite (Z.pow_neg_r 2 d) in Hhi by lia. lia. }
  enough (Z.log2 (Z.pos p) = d - 1) by lia.
  apply Z.log2_unique; [lia|]. replace (Z.succ (d - 1)) with d by lia. lia.
Qed.

Lemma iter_pos_iter {A} (f : A -> A) (n : positive) (x : A) :
  SpecFloat.iter_pos f n x = Pos.iter f x n.
Proof.
  revert x. induction n as [n IH|n IH|]; intros x; simpl.
  - rewrite !IH. rewrite <- !Pos.iter_swap. reflexivity.
  - rewrite !IH. reflexivity.
  - reflexivity.
Qed.

Lemma shr_1_nonneg (m : Z) (r s : bool) :
  0 <= m ->
  shr_1 {| shr_m := m; shr_r := r; shr_s := s |} =
  {| shr_m := m / 2; shr_r := Z.odd m; shr_s := r || s |}.
Proof.
  intros Hm. rewrite <- Z.div2_div.
  destruct m as [|[p|p|]|p]; try lia; reflexivity.
Qed.

Lemma iter_xO (m d : positive) : Z.pos (Pos.iter xO m d) = Z.pos m * 2 ^ Z.pos d.
Proof.
  induction d as [|d IH] using Pos.peano_ind.
  - simpl. lia.
  - rewrite Pos.iter_succ, Pos2Z.inj_succ, Z.pow_succ_r by lia.
    rewrite Pos2Z.inj_xO, IH. lia.
Qed.

Lemma shr_iter (m : Z) (n : positive) :
  0 <= m ->
  Pos.iter shr_1 {| shr_m := m; shr_r := false; shr_s := false |} n =
  {| shr_m := m / 2 ^ Z.pos n;
     shr_r := Z.odd (m / 2 ^ (Z.pos n - 1));
     shr_s := negb (m mod 2 ^ (Z.pos n - 1) =? 0) |}.
Proof.
  intros Hm. induction n as [|n IH] using Pos.peano_ind.
  - cbv [Pos.iter]. rewrite shr_1_nonneg by assumption.
    change (Z.pos 1 - 1) with 0. rewrite Z.pow_0_r, Z.div_1_r, Z.mod_1_r.
    reflexivity.
  - rewrite Pos.iter_succ, IH.
    assert (Hp : 0 < 2 ^ Z.pos n) by (apply Z.pow_pos_nonneg; lia).
    assert (Hq : 0 < 2 ^ (Z.pos n - 1)) by (apply Z.pow_pos_nonneg; lia).
    rewrite shr_1_nonneg by (apply Z.div_pos; lia).
    rewrite Pos2Z.inj_succ.
    replace (Z.succ (Z.pos n) - 1) with (Z.pos n) by lia.
    rewrite Z.pow_succ_r by lia.
    f_equal.
    + rewrite Z.mul_comm, Z.div_div by lia. reflexivity.
    + assert (E : 2 ^ Z.pos n = 2 ^ (Z.pos n - 1) * 2).
      { replace (Z.pos n) with (Z.succ (Z.pos n - 1)) at 1 by lia.
        rewrite Z.pow_succ_r by lia. lia. }
      rewrite E at 1. rewrite Z.rem_mul_r by lia.
      rewrite Zodd_mod.
      pose proof (Z.mod_pos_bound m (2 ^ (Z.pos n - 1)) Hq).
      pose proof (Z.mod_pos_bound (m / 2 ^ (Z.pos n - 1)) 2 ltac:(lia)).
      destruct (Z.eqb_spec ((m / 2 ^ (Z.pos n - 1)) mod 2) 1);
      destruct (Z.eqb_spec (m mod 2 ^ (Z.pos n - 1)) 0); simpl;
      symmetry; rewrite ?negb_true_iff, ?negb_false_iff, ?Z.eqb_eq, ?Z.eqb_neq; nia.
Qed.


Lemma shr_round_nearest (m : Z) (n : positive) :
  0 <= m ->
  let mrs := Pos.iter shr_1 {| shr_m := m; shr_r := false; shr_s := false |} n in
  let q := round_nearest_even (shr_m mrs) (loc_of_shr_record mrs) in
  2 * m - 2 ^ Z.pos n <= 2 * (q * 2 ^ Z.pos n) <= 2 * m + 2 ^ Z.pos n.
Proof.
  intros Hm mrs q. subst q mrs. rewrite shr_iter by assumption.
  assert (Hh : 0 < 2 ^ (Z.pos n - 1)) by (apply Z.pow_pos_nonneg; lia).
  assert (E : 2 ^ Z.pos n = 2 ^ (Z.pos n - 1) * 2).
  { replace (Z.pos n) with (Z.succ (Z.pos n - 1)) at 1 by lia.
    rewrite Z.pow_succ_r by lia. lia. }
  rewrite E. set (h := 2 ^ (Z.pos n - 1)) in *.
  rewrite <- Z.div_div by lia.
  pose proof (Z.div_mod m h ltac:(lia)) as Hdm.
  pose proof (Z.mod_pos_bound m h Hh) as Hc.
  set (a := m / h) in *. set (c := m mod h) in *.
  pose proof (Z.div_mod a 2 ltac:(lia)) as Hda.
  pose proof (Z.mod_pos_bound a 2 ltac:(lia)) as Hb.
  rewrite Zodd_mod.
  set (a2 := a / 2) in *. set (b := a mod 2) in *.
  unfold loc_of_shr_record, round_nearest_even; cbn [shr_m].
  destruct (Z.eqb_spec b 1) as [Hb1|Hb1];
    destruct (Z.eqb_spec c 0) as [Hc0|Hc0]; cbn [negb];
    try destruct (Z.even a2); nia.
Qed.


Lemma fexp_normal (x : Z) : -1074 <= x - 53 -> fexp Float.prec Float.emax x = x - 53.
Proof. unfold fexp, emin, Float.prec, Float.emax. lia. Qed.

Lemma shr_fexp_shift (p : positive) (e : Z) (n : positive) :
  Z.pos (digits2_pos p) - 53 = Z.pos n ->
  -1074 <= Z.pos (digits2_pos p) + e - 53 ->
  shr_fexp Float.prec Float.emax (Z.pos p) e loc_Exact =
  (Pos.iter shr_1 {| shr_m := Z.pos p; shr_r := false; shr_s := false |} n,
   e + Z.pos n).
Proof.
  intros Hn He. unfold shr_fexp. cbn [Zdigits2].
  rewrite fexp_normal by lia.
  replace (Z.pos (digits2_pos p) + e - 53 - e) with (Z.pos n) by lia.
  cbn [shr shr_record_of_loc]. rewrite iter_pos_iter. reflexivity.
Qed.

Lemma shr_fexp_id (p : positive) (e : Z) :
  Z.pos (digits2_pos p) = 53 -> -1074 <= e ->
  shr_fexp Float.prec Float.emax (Z.pos p) e loc_Exact =
  ({| shr_m := Z.pos p; shr_r := false; shr_s := false |}, e).
Proof.
  intros Hd He. unfold shr_fexp. cbn [Zdigits2]. rewrite Hd.
  rewrite fexp_normal by lia.
  replace (53 + e - 53 - e) with 0 by lia. reflexivity.
Qed.

Lemma shr_fexp_carry (e : Z) :
  -1074 <= e ->
  shr_fexp Float.prec Float.emax 9007199254740992 e loc_Exact =
  ({| shr_m := 4503599627370496; shr_r := false; shr_s := false |}, e + 1).
Proof.
  intros He. unfold shr_fexp. change (Zdigits2 9007199254740992) with 54.
  rewrite fexp_normal by lia.
  replace (54 + e - 53 - e) with 1 by lia. reflexivity.
Qed.

Lemma round_aux_to_int (p : positive) (e : Z) :
  let dp := Z.pos (digits2_pos p) in
  53 < dp -> -54 <= dp + e - 53 <= -2 ->
  exists q,
    (2 * Z.pos p - 2 ^ (dp - 53) <= 2 * (q * 2 ^ (dp - 53))
       <= 2 * Z.pos p + 2 ^ (dp - 53)) /\
    Float.to_int (binary_round_aux Float.prec Float.emax false (Z.pos p) e loc_Exact)
    = Ok (q / 2 ^ (- (dp + e - 53))).
Proof.
  intros dp Hdp He.
  remember (dp - 53) as sh eqn:Hsh. destruct sh as [|n|n]; try lia.
  unfold binary_round_aux.
  rewrite (shr_fexp_shift p e n) by (fold dp; lia).
  pose proof (shr_round_nearest (Z.pos p) n ltac:(lia)) as Hn. cbv zeta in Hn.
  set (mrs := Pos.iter shr_1 _ n) in *.
  set (q := round_nearest_even (shr_m mrs) (loc_of_shr_record mrs)) in *.
  exists q. split; [exact Hn|].
  pose proof (digits2_bounds p) as Hp. fold dp in Hp.
  assert (HS : 0 < 2 ^ Z.pos n) by (apply Z.pow_pos_nonneg; lia).
  assert (E1 : 2 ^ (dp - 1) = 2 ^ 52 * 2 ^ Z.pos n).
  { rewrite <- Z.pow_add_r by lia. f_equal. lia. }
  assert (E2 : 2 ^ dp = 2 ^ 53 * 2 ^ Z.pos n).
  { rewrite <- Z.pow_add_r by lia. f_equal. lia. }
  rewrite E1, E2 in Hp.
  change (2 ^ 52) with 4503599627370496 in Hp.
  change (2 ^ 53) with 9007199254740992 in Hp.
  assert (Hq : 4503599627370496 <= q <= 9007199254740992) by nia.
  replace (dp + e - 53) with (e + Z.pos n) by lia.
  set (e1 := e + Z.pos n) in *.
  destruct (Z.eq_dec q 9007199254740992) as [Hq53|Hq53].
  - rewrite Hq53, shr_fexp_carry by lia. cbn [shr_m].
    unfold Float.emax, Float.prec.
    destruct (Z.leb_spec (e1 + 1) (1024 - 53)); [|lia].
    unfold Float.to_int.
    destruct (Z.ltb_spec (e1 + 1) 0); [|lia].
    f_equal.
    replace (- (e1 + 1)) with (- e1 - 1) by lia.
    assert (E3 : 2 ^ (- e1) = 2 * 2 ^ (- e1 - 1)).
    { replace (- e1) with (Z.succ (- e1 - 1)) at 1 by lia.
      rewrite Z.pow_succ_r by lia. reflexivity. }
    rewrite E3.
    change 9007199254740992 with (2 * 4503599627370496).
    rewrite Z.div_mul_cancel_l; [reflexivity| |lia].
    apply Z.pow_nonzero; lia.
  - destruct q as [|q'|q'] eqn:Eq; try lia.
    rewrite shr_fexp_id; [| |lia].
    2:{ apply digits2_unique.
        change (2 ^ (53 - 1)) with 4503599627370496.
        change (2 ^ 53) with 9007199254740992. lia. }
    cbn [shr_m].
    unfold Float.emax, Float.prec.
    destruct (Z.leb_spec e1 (1024 - 53)); [|lia].
    unfold Float.to_int.
    destruct (Z.ltb_spec e1 0); [|lia].
    reflexivity.
Qed.


Lemma round_aux_exact (m : positive) (e : Z) :
  Z.pos (digits2_pos m) = 53 -> -1074 <= e <= 971 ->
  binary_round_aux Float.prec Float.emax false (Z.pos m) e loc_Exact =
  S754_finite false m e.
Proof.
  intros Hd He. unfold binary_round_aux.
  rewrite shr_fexp_id by (assumption || lia).
  cbn [shr_m loc_of_shr_record round_nearest_even].
  rewrite shr_fexp_id by (assumption || lia).
  cbn [shr_m]. unfold Float.emax, Float.prec.
  destruct (Z.leb_spec e (1024 - 53)); [reflexivity|lia].
Qed.

Lemma of_int_exact (M : Z) :
  0 < M < 2 ^ 53 ->
  let d := Z.log2 M + 1 in
  Float.of_int M = Ok (S754_finite false (Z.to_pos (M * 2 ^ (53 - d))) (d - 53)).
Proof.
  intros HM d.
  destruct M as [|m|m]; try lia.
  assert (Hd : Z.pos (digits2_pos m) = d) by apply digits2_log2.
  pose proof (digits2_bounds m) as Hb. rewrite Hd in Hb.
  assert (Hd53 : 1 <= d <= 53).
  { split; [pose proof (Z.log2_nonneg (Z.pos m)); lia|].
    destruct (Z_le_gt_dec d 53) as [|Hgt]; [assumption|].
    assert (2 ^ 53 <= 2 ^ (d - 1)) by (apply Z.pow_le_mono_r; lia). lia. }
  unfold Float.of_int, binary_normalize, binary_round.
  rewrite Z.add_0_r, Hd, fexp_normal by lia.
  unfold shl_align.
  remember (d - 53 - 0) as sh eqn:Hsh. destruct sh as [|k|k]; try lia.
  - replace (53 - d) with 0 by lia. rewrite Z.pow_0_r, Z.mul_1_r.
    cbn [Z.to_pos].
    rewrite round_aux_exact by lia. f_equal. f_equal. lia.
  - assert (Hk : 53 - d = Z.pos k) by lia. rewrite Hk.
    rewrite <- iter_xO. cbn [Z.to_pos].
    rewrite round_aux_exact; [reflexivity| |lia].
    apply digits2_unique. rewrite iter_xO.
    assert (E1 : 2 ^ (53 - 1) = 2 ^ (d - 1) * 2 ^ Z.pos k).
    { rewrite <- Z.pow_add_r by lia. f_equal. lia. }
    assert (E2 : 2 ^ 53 = 2 ^ d * 2 ^ Z.pos k).
    { rewrite <- Z.pow_add_r by lia. f_equal. lia. }
    rewrite E1, E2.
    assert (0 < 2 ^ Z.pos k) by (apply Z.pow_pos_nonneg; lia).
    nia.
Qed.


Lemma int_mul_to_int (M : Z) (mt : positive) (et : Z) :
  0 < M < 2 ^ 51 -> 2 ^ 52 <= Z.pos mt < 2 ^ 53 -> -54 <= et <= -53 ->
  exists q D S T,
    0 < D /\ 2 ^ 52 <= S /\ 2 ^ (- et - 51) <= T /\ S * T = D * 2 ^ (- et) /\
    2 ^ 52 <= M * D < 2 ^ 53 /\
    (2 * (M * D * Z.pos mt) - S <= 2 * (q * S) <= 2 * (M * D * Z.pos mt) + S) /\
    (let* prod := Float.int_mul M (S754_finite false mt et) in Float.to_int prod)
    = Ok (q / T).
Proof.
  intros HM Hmt Het.
  pose proof (Z.log2_spec M ltac:(lia)) as Hlog.
  pose proof (Z.log2_nonneg M) as Hlog0.
  set (d := Z.log2 M + 1).
  replace (Z.succ (Z.log2 M)) with d in Hlog by (unfold d; lia).
  replace (Z.log2 M) with (d - 1) in Hlog by (unfold d; lia).
  assert (Hd : 1 <= d <= 51).
  { split; [unfold d; lia|].
    destruct (Z_le_gt_dec d 51) as [|Hgt]; [assumption|].
    assert (2 ^ 51 <= 2 ^ (d - 1)) by (apply Z.pow_le_mono_r; lia). lia. }
  set (D := 2 ^ (53 - d)).
  assert (HD : 0 < D) by (apply Z.pow_pos_nonneg; lia).
  assert (HMn : 2 ^ 52 <= M * D < 2 ^ 53).
  { assert (E1 : 2 ^ 52 = 2 ^ (d - 1) * D).
    { unfold D. rewrite <- Z.pow_add_r by lia. f_equal. lia. }
    assert (E2 : 2 ^ 53 = 2 ^ d * D).
    { unfold D. rewrite <- Z.pow_add_r by lia. f_equal. lia. }
    rewrite E1, E2. nia. }
  unfold Float.int_mul.
  rewrite of_int_exact by (change (2 ^ 53) with (4 * 2 ^ 51); lia).
  fold d. fold D. cbn [bind SFmul xorb].
  remember (Z.to_pos (M * D)) as mn eqn:Hmn.
  assert (Emn : Z.pos mn = M * D) by (subst mn; rewrite Z2Pos.id; lia).
  set (p := (mn * mt)%positive).
  assert (Ep : Z.pos p = M * D * Z.pos mt) by (unfold p; rewrite Pos2Z.inj_mul; lia).
  pose proof (digits2_bounds p) as Hb.
  set (dp := Z.pos (digits2_pos p)) in *.
  assert (Hp : 2 ^ 104 <= Z.pos p < 2 ^ 106).
  { rewrite Ep. change (2 ^ 104) with (2 ^ 52 * 2 ^ 52).
    change (2 ^ 106) with (2 ^ 53 * 2 ^ 53).
    assert (0 < 2 ^ 52) by reflexivity. nia. }
  assert (Hdp : 105 <= dp <= 106).
  { split.
    - destruct (Z_le_gt_dec 105 dp) as [|Hgt]; [assumption|].
      assert (2 ^ dp <= 2 ^ 104) by (apply Z.pow_le_mono_r; lia). lia.
    - destruct (Z_le_gt_dec dp 106) as [|Hgt]; [assumption|].
      assert (2 ^ 106 <= 2 ^ (dp - 1)) by (apply Z.pow_le_mono_r; lia). lia. }
  destruct (round_aux_to_int p (d - 53 + et)) as (q & Hq & Hto);
    [fold dp; lia | fold dp; lia |].
  fold dp in Hq, Hto.
  exists q, D, (2 ^ (dp - 53)), (2 ^ (- (dp + (d - 53 + et) - 53))).
  split; [exact HD|]. split; [apply Z.pow_le_mono_r; lia|].
  split; [apply Z.pow_le_mono_r; lia|].
  split.
  { unfold D. rewrite <- !Z.pow_add_r by lia. f_equal. lia. }
  split; [exact HMn|]. split; [rewrite <- Ep; exact Hq|exact Hto].
Qed.

Lemma nearest_floor (q S T X p k : Z) :
  0 < S -> 0 < T -> X = S * T ->
  2 * p - S <= 2 * (q * S) <= 2 * p + S ->
  2 * (k * X) - S < 2 * p -> 2 * p + S < 2 * (k * X) + 2 * X ->
  q / T = k.
Proof.
  intros HS HT -> Hq Hlo Hhi.
  symmetry. apply Z.div_unique with (r := q - k * T); [|lia].
  left. split.
  - destruct (Z_le_gt_dec (k * T) q) as [|Hgt]; [lia|]. exfalso.
    assert (q * S <= (k * T - 1) * S) by (apply Z.mul_le_mono_nonneg_r; lia).
    nia.
  - destruct (Z_lt_le_dec q (k * T + T)) as [|Hge]; [lia|]. exfalso.
    assert ((k * T + T) * S <= q * S) by (apply Z.mul_le_mono_nonneg_r; lia).
    nia.
Qed.


Lemma tier_fraction (P : Z) :
  P = 30 \/ P = 50 \/ P = 75 ->
  exists mt et,
    Float.int_truediv P 100 = Ok (S754_finite false mt et) /\
    (P = 30 /\ 10 * Z.pos mt = 3 * 2 ^ 54 - 2 /\ et = -54 \/
     P = 50 /\ 2 * Z.pos mt = 2 ^ 53 /\ et = -53 \/
     P = 75 /\ 4 * Z.pos mt = 3 * 2 ^ 53 /\ et = -53).
Proof.
  intros [-> | [-> | ->]].
  - exists 5404319552844595%positive, (-54). split; [reflexivity|]. left. easy.
  - exists 4503599627370496%positive, (-53). split; [reflexivity|].
    right; left. easy.
  - exists 6755399441055744%positive, (-53). split; [reflexivity|].
    right; right. easy.
Qed.

Lemma tier_bytes (P M : Z) :
  P = 30 \/ P = 50 \/ P = 75 -> 0 <= M < 2 ^ 51 ->
  (let* frac := Float.int_truediv P 100 in
   let* prod := Float.int_mul M frac in Float.to_int prod) = Ok (M * P / 100).
Proof.
  intros HP HM.
  destruct (tier_fraction P HP) as (mt & et & -> & Htier). cbn [bind].
  destruct (Z.eq_dec M 0) as [->|HM0].
  { destruct Htier as [(-> & _) | [(-> & _) | (-> & _)]]; reflexivity. }
  assert (Hmt : 2 ^ 52 <= Z.pos mt < 2 ^ 53).
  { change (2 ^ 52) with 4503599627370496.
    change (2 ^ 53) with 9007199254740992.
    change (2 ^ 54) with 18014398509481984 in Htier.
    change (2 ^ 53) with 9007199254740992 in Htier. lia. }
  destruct (int_mul_to_int M mt et) as (q & D & S & T & HD & HS & HT & HX & HMn & Hq & ->);
    [lia|exact Hmt|lia|].
  f_equal.
  change (2 ^ 52) with 4503599627370496 in *.
  change (2 ^ 53) with 9007199254740992 in *.
  change (2 ^ 54) with 18014398509481984 in *.
  change (2 ^ 51) with 2251799813685248 in *.
  pose proof (Z.div_mod (M * P) 100 ltac:(lia)) as Hdm.
  pose proof (Z.mod_pos_bound (M * P) 100 ltac:(lia)) as Hr.
  set (k := M * P / 100) in *. set (r := (M * P) mod 100) in *.
  set (Mn := M * D) in *.
  assert (Ek : 100 * (k * (S * T)) + r * (S * T) = P * (M * (S * T))).
  { replace (P * (M * (S * T))) with (M * P * (S * T)) by ring.
    rewrite Hdm. ring. }
  assert (Hr0 : 0 <= r * (S * T)) by nia.
  apply (nearest_floor q S T (S * T) (Mn * Z.pos mt) k); try lia.
  - destruct Htier as [(-> & Emt & ->) | [(-> & Emt & ->) | (-> & Emt & ->)]].
    + change (- -54) with 54 in HX. change (2 ^ 54) with 18014398509481984 in HX.
      assert (E : 10 * (Mn * Z.pos mt) = 3 * (M * (S * T)) - 2 * Mn).
      { replace (10 * (Mn * Z.pos mt)) with (Mn * (10 * Z.pos mt)) by ring.
        rewrite Emt, HX. unfold Mn. ring. }
      assert (Hr10 : r = 0 \/ 10 <= r) by lia.
      assert (HMX : 2 * Mn < S * T) by (rewrite HX; unfold Mn; nia).
      destruct Hr10 as [Hr10|Hr10]; [rewrite Hr10 in Ek; lia|].
      assert (10 * (S * T) <= r * (S * T)) by (apply Z.mul_le_mono_nonneg_r; nia).
      lia.
    + change (- -53) with 53 in HX. change (2 ^ 53) with 9007199254740992 in HX.
      assert (E : 2 * (Mn * Z.pos mt) = M * (S * T)).
      { replace (2 * (Mn * Z.pos mt)) with (Mn * (2 * Z.pos mt)) by ring.
        rewrite Emt, HX. unfold Mn. ring. }
      lia.
    + change (- -53) with 53 in HX. change (2 ^ 53) with 9007199254740992 in HX.
      assert (E : 4 * (Mn * Z.pos mt) = 3 * (M * (S * T))).
      { replace (4 * (Mn * Z.pos mt)) with (Mn * (4 * Z.pos mt)) by ring.
        rewrite Emt, HX. unfold Mn. ring. }
      lia.
  - destruct Htier as [(-> & Emt & ->) | [(-> & Emt & ->) | (-> & Emt & ->)]].
    + change (- -54 - 51) with 3 in HT. change (2 ^ 3) with 8 in HT.
      change (- -54) with 54 in HX. change (2 ^ 54) with 18014398509481984 in HX.
      assert (E : 10 * (Mn * Z.pos mt) = 3 * (M * (S * T)) - 2 * Mn).
      { replace (10 * (Mn * Z.pos mt)) with (Mn * (10 * Z.pos mt)) by ring.
        rewrite Emt, HX. unfold Mn. ring. }
      assert (Hr90 : r <= 90) by lia.
      assert (r * (S * T) <= 90 * (S * T)) by (apply Z.mul_le_mono_nonneg_r; nia).
      assert (8 * S <= S * T) by nia.
      lia.
    + change (- -53 - 51) with 2 in HT. change (2 ^ 2) with 4 in HT.
      change (- -53) with 53 in HX. change (2 ^ 53) with 9007199254740992 in HX.
      assert (E : 2 * (Mn * Z.pos mt) = M * (S * T)).
      { replace (2 * (Mn * Z.pos mt)) with (Mn * (2 * Z.pos mt)) by ring.
        rewrite Emt, HX. unfold Mn. ring. }
      assert (Hr50 : r <= 50) by lia.
      assert (r * (S * T) <= 50 * (S * T)) by (apply Z.mul_le_mono_nonneg_r; nia).
      assert (4 * S <= S * T) by nia.
      lia.
    + change (- -53 - 51) with 2 in HT. change (2 ^ 2) with 4 in HT.
      change (- -53) with 53 in HX. change (2 ^ 53) with 9007199254740992 in HX.
      assert (E : 4 * (Mn * Z.pos mt) = 3 * (M * (S * T))).
      { replace (4 * (Mn * Z.pos mt)) with (Mn * (4 * Z.pos mt)) by ring.
        rewrite Emt, HX. unfold Mn. ring. }
      assert (Hr75 : r <= 75) by lia.
      assert (r * (S * T) <= 75 * (S * T)) by (apply Z.mul_le_mono_nonneg_r; nia).
      assert (4 * S <= S * T) by nia.
      lia.
Qed.

(** ** The machine: invariant and single steps *)

Section Machine.

Variable h : host.
Variable args : Namespace.

Lemma randint_ok (r a b : Z) :
  a <= b -> exists v, randint r a b = Ok v /\ a <= v <= b.
Proof.
  intros Hab. unfold randint.
  destruct (Z.ltb_spec b a); [lia|].
  eexists; split; [reflexivity|].
  pose proof (Z.mod_pos_bound r (b - a + 1) ltac:(lia)). lia.
Qed.

Lemma mapped_app (a b : list event) : mapped (a ++ b) = mapped a + mapped b.
Proof.
  induction a as [|e a IH]; [reflexivity|].
  destruct e; try destruct ok; simpl; lia.
Qed.

Lemma reads_follow_app (prev : option event) (a b : list event) :
  reads_follow prev (a ++ b) <-> reads_follow prev a /\ reads_follow (last_or prev a) b.
Proof.
  revert prev. induction a as [|e a IH]; intros prev.
  - simpl. unfold last_or. simpl. tauto.
  - simpl. rewrite IH.
    assert (E : last_or (Some e) a = last_or prev (e :: a)).
    { unfold last_or. destruct a as [|e' a']; [reflexivity|].
      rewrite last_cons_cons.
      destruct (last (e' :: a')) eqn:El; [reflexivity|].
      apply last_None in El. discriminate. }
    rewrite E. tauto.
Qed.

Lemma reads_follow_spec (tr pre post : list event) (offset v : Z) :
  reads_follow None tr -> tr = pre ++ ERead offset v :: post ->
  exists pre', pre = pre' ++ [EWrite offset v].
Proof.
  intros Hrf ->. apply reads_follow_app in Hrf as [_ Hrf].
  simpl in Hrf. destruct Hrf as [Hl _].
  unfold last_or in Hl. destruct (last pre) as [e|] eqn:El; [|discriminate].
  injection Hl as ->. apply last_Some in El as [pre' ->]. eauto.
Qed.


Lemma quiet_mapped (evs : list event) :
  Forall (fun e => quiet e = true) evs -> mapped evs = 0.
Proof.
  induction 1 as [|e evs He _ IH]; [reflexivity|].
  destruct e; try discriminate; simpl; exact IH.
Qed.

Lemma quiet_no_access (evs : list event) :
  Forall (fun e => quiet e = true) evs -> no_access evs.
Proof.
  unfold no_access. intros H. eapply Forall_impl; [exact H|].
  intros e He. destruct e; easy.
Qed.

Lemma quiet_in_bounds (bytes : Z) (evs : list event) :
  Forall (fun e => quiet e = true) evs -> Forall (access_in_bounds bytes) evs.
Proof.
  intros H. eapply Forall_impl; [exact H|]. intros e He. destruct e; easy.
Qed.

Lemma quiet_reads_follow (prev : option event) (evs : list event) :
  Forall (fun e => quiet e = true) evs -> reads_follow prev evs.
Proof.
  intros H. revert prev. induction H as [|e evs He _ IH]; intros prev; [exact I|].
  simpl. split; [destruct e; easy|apply IH].
Qed.

Lemma late_inv_quiet (l l' : label) (j : Jaws) (m : mmap) (tr evs : list event) :
  late_inv args l j m tr ->
  Forall (fun e => quiet e = true) evs ->
  label_inv l' j m (tr ++ evs) ->
  late_inv args l' j m (tr ++ evs).
Proof.
  intros (Hl & Hs & Hm & Hb & Hr & Hst & _) Hq Hlab.
  repeat split; try (apply Hl || assumption).
  - rewrite mapped_app, (quiet_mapped evs Hq). lia.
  - apply Forall_app. split; [assumption|apply quiet_in_bounds, Hq].
  - apply reads_follow_app. split; [assumption|apply quiet_reads_follow, Hq].
  - apply Hst. assumption.
  - apply Forall_app. split; [apply Hst; assumption|apply quiet_no_access, Hq].
Qed.


Lemma mmap_index_live (j : Jaws) (m : mmap) (offset : Z) :
  live j m -> 0 <= offset < buffer_size j -> mmap_index m offset = Ok offset.
Proof.
  intros (_ & Hc & _ & Hlen & _) Ho. unfold mmap_index. rewrite Hc, Hlen.
  assert (E1 : (offset <? 0) = false) by (apply Z.ltb_ge; lia).
  assert (E2 : (buffer_size j <=? offset) = false) by (apply Z.leb_gt; lia).
  rewrite E1. cbv zeta. rewrite E1, E2. reflexivity.
Qed.

Lemma guarded_write_live (j : Jaws) (m : mmap) (offset r : Z) :
  live j m -> 0 <= offset < buffer_size j ->
  exists v m',
    0 <= v <= 255 /\
    guarded_write j offset r =
      ([ERandInt 0 255 v; EWrite offset v], Ok (set_buffer j (Some m'), true)) /\
    live (set_buffer j (Some m')) m' /\
    mmap_getitem m' offset = Ok v.
Proof.
  intros Hl Ho. pose proof Hl as (Hb & Hc & He & Hlen & Hpos).
  destruct (randint_ok r 0 255 ltac:(lia)) as (v & Hv & Hvr).
  unfold guarded_write. destruct (Z.ltb_spec offset (buffer_size j)); [|lia].
  rewrite Hv, Hb. unfold mmap_setitem.
  rewrite (mmap_index_live j m offset Hl Ho). cbn [bind].
  destruct (Z.ltb_spec v 0); [lia|]. destruct (Z.ltb_spec 255 v); [lia|].
  cbn [orb]. eexists v, _. split; [exact Hvr|]. split; [reflexivity|].
  split.
  - repeat split; try assumption.
  - unfold mmap_getitem, mmap_index. cbn [mm_closed mm_len mm_data].
    rewrite Hc, Hlen.
    assert (E1 : (offset <? 0) = false) by (apply Z.ltb_ge; lia).
    assert (E2 : (buffer_size j <=? offset) = false) by (apply Z.leb_gt; lia).
    rewrite E1. cbv zeta. rewrite E1, E2.
    cbn [orb bind]. rewrite lookup_insert_eq. reflexivity.
Qed.

Lemma mmap_getitem_live (j : Jaws) (m : mmap) (offset : Z) :
  live j m -> 0 <= offset < buffer_size j ->
  mmap_getitem m offset = Ok (default 0 (mm_data m !! offset)).
Proof.
  intros Hl Ho. unfold mmap_getitem.
  rewrite (mmap_index_live j m offset Hl Ho). reflexivity.
Qed.

Lemma guarded_read_live (j : Jaws) (m : mmap) (offset v : Z) :
  live j m -> 0 <= offset < buffer_size j -> mmap_getitem m offset = Ok v ->
  guarded_read j offset = ([ERead offset v], Ok tt).
Proof.
  intros Hl Ho Hv. pose proof Hl as (Hb & _).
  unfold guarded_read. destruct (Z.ltb_spec offset (buffer_size j)); [|lia].
  rewrite Hb, Hv. reflexivity.
Qed.

Lemma truthy_live (j : Jaws) (m : mmap) : live j m -> truthy (buffer j) = Ok true.
Proof.
  intros (Hb & Hc & _ & Hlen & Hpos). unfold truthy. rewrite Hb, Hc, Hlen.
  destruct (Z.eqb_spec (buffer_size j) 0); [lia|]. reflexivity.
Qed.

Lemma cleanup_live (j : Jaws) (m : mmap) :
  live j m ->
  cleanup j = ([EMunmap (buffer_size j); EPrint "Memory buffer released."],
               Ok (set_buffer j None)).
Proof.
  intros Hl. pose proof Hl as (Hb & Hc & He & Hlen & Hpos).
  unfold cleanup. rewrite (truthy_live j m Hl), Hb.
  unfold mmap_close. rewrite He, Hc, Hlen. reflexivity.
Qed.

Lemma cleanup_none (j : Jaws) : buffer j = None -> cleanup j = ([], Ok j).
Proof. intros Hb. unfold cleanup. rewrite Hb. reflexivity. Qed.

Ltac quiet_tac := repeat constructor.

Ltac halt_tac :=
  cbn;
  repeat match goal with |- _ /\ _ => split end;
  first [ reflexivity | tauto
        | unfold no_access; repeat constructor; fail
        | intros ? [= <-]; assumption
        | easy ].

Lemma computed_buffer_size_exn (pct total page : Z) (e : exn) :
  computed_buffer_size pct total page = Raise e ->
  e = OverflowError \/ e = ZeroDivisionError \/ e = ValueError.
Proof.
  unfold computed_buffer_size, Float.int_truediv, Float.int_mul, Float.of_int,
    Float.to_int.
  repeat match goal with
         | |- context [match ?x with _ => _ end] => destruct x; cbn [bind]
         end; intros [= <-]; tauto.
Qed.

Lemma inv_initial : inv args initial.
Proof. repeat split. Qed.

Lemma inv_step (s : state) : inv args s -> inv args (step h args s).
Proof.
  destruct s as [l ji hd c tr]. unfold inv, step. cbn [pc jaws_instance sigint_handler trace].
  destruct l as [|pct| | | | | |ph|ph k|ph k offset|ph k offset|ph| | |o].
  - (* L_parse *)
    intros (-> & -> & ->). unfold select_percentage.
    destruct (low args), (mid args), (high args); halt_tac.
  - (* L_construct *)
    intros (-> & -> & ->). unfold Jaws_init.
    destruct (computed_buffer_size pct (total_memory h) (getpagesize h))
      as [bytes|e] eqn:Hc.
    + destruct (Z.eqb_spec bytes 0) as [->|Hb]; [halt_tac|].
      cbn. repeat split. eexists. split; [reflexivity|]. split; reflexivity.
    + apply computed_buffer_size_exn in Hc.
      destruct Hc as [-> | [-> | ->]]; halt_tac.
  - (* L_signal *)
    intros (-> & -> & j & -> & Hf). cbn. repeat split. eauto.
  - (* L_create *)
    intros (-> & -> & j & -> & Hb & Hs). cbn [step_self pc cursor].
    unfold create_buffer, mmap_new.
    destruct (mmap_error h) as [msg|]; [halt_tac|].
    destruct (Z.ltb_spec (buffer_size j) 0); [halt_tac|].
    destruct (Z.eqb_spec (buffer_size j) 0); [halt_tac|].
    cbn. split; [reflexivity|]. eexists _, _. split; [reflexivity|].
    unfold late_inv, live. cbn.
    repeat split; try assumption; try lia; repeat constructor.
  - (* L_report *)
    intros (-> & j & m & -> & Hi). cbn. split; [reflexivity|].
    exists j, m. split; [reflexivity|].
    eapply late_inv_quiet; [exact Hi|quiet_tac|exact I].
  - (* L_mode *)
    intros (-> & j & m & -> & Hi). cbn [step_self pc cursor].
    destruct (static_mode j) eqn:Hsm; cbn.
    + split; [reflexivity|]. exists j, m. split; [reflexivity|].
      eapply late_inv_quiet; [exact Hi|quiet_tac|exact Hsm].
    + split; [reflexivity|]. exists j, m. split; [reflexivity|].
      eapply late_inv_quiet; [exact Hi|quiet_tac|exact Hsm].
  - (* L_enter *)
    intros (-> & j & m & -> & Hi). cbn [step_self pc cursor].
    pose proof Hi as (Hl & _ & _ & _ & _ & _ & Hlab).
    rewrite (truthy_live j m Hl). cbn.
    split; [reflexivity|]. exists j, m. split; [reflexivity|].
    eapply late_inv_quiet; [exact Hi|quiet_tac|exact Hlab].
  - (* L_burst *)
    intros (-> & j & m & -> & Hi). cbn [step_self pc cursor].
    pose proof Hi as (Hl & _ & _ & _ & _ & _ & Hlab).
    destruct ph; cbn [burst_bounds].
    + destruct (randint_ok (draws h c) 5 20 ltac:(lia)) as (n & -> & Hn). cbn.
      split; [reflexivity|]. exists j, m. split; [reflexivity|].
      eapply late_inv_quiet; [exact Hi|quiet_tac|exact Hlab].
    + destruct (randint_ok (draws h c) 1 5 ltac:(lia)) as (n & -> & Hn). cbn.
      split; [reflexivity|]. exists j, m. split; [reflexivity|].
      eapply late_inv_quiet; [exact Hi|quiet_tac|exact Hlab].
  - (* L_offset *)
    intros (-> & j & m & -> & Hi). cbn [step_self pc cursor].
    pose proof Hi as (Hl & _ & _ & _ & _ & _ & Hlab).
    destruct k as [|k].
    + cbn. split; [reflexivity|]. exists j, m. split; [reflexivity|].
      eapply late_inv_quiet; [exact Hi|quiet_tac|exact Hlab].
    + pose proof Hl as (_ & _ & _ & _ & Hpos).
      destruct (randint_ok (draws h c) 0 (buffer_size j - 1) ltac:(lia))
        as (off & -> & Hoff). cbn.
      split; [reflexivity|]. exists j, m. split; [reflexivity|].
      eapply late_inv_quiet; [exact Hi|quiet_tac|].
      split; [exact Hlab|lia].
  - (* L_write *)
    intros (-> & j & m & -> & Hi). cbn [step_self pc cursor].
    destruct Hi as (Hl & Hs & Hm & Hb & Hr & Hst & Hdyn & Ho).
    destruct (guarded_write_live j m offset (draws h c) Hl Ho)
      as (v & m' & Hv & -> & Hl' & Hget).
    cbn. split; [reflexivity|]. eexists _, m'. split; [reflexivity|].
    repeat split; try apply Hl'; cbn [buffer_size set_buffer static_mode];
      try assumption.
    + rewrite mapped_app. cbn. lia.
    + apply Forall_app. split; [assumption|]. repeat constructor; cbn; lia.
    + apply reads_follow_app. split; [assumption|]. cbn. tauto.
    + congruence.
    + congruence.
    + lia.
    + lia.
    + exists v. split; [exact Hget|].
      change (tr ++ [ERandInt 0 255 v; EWrite offset v])
        with (tr ++ [ERandInt 0 255 v] ++ [EWrite offset v]).
      rewrite app_assoc. apply last_snoc.
  - (* L_read *)
    intros (-> & j & m & -> & Hi). cbn [step_self pc cursor].
    destruct Hi as (Hl & Hs & Hm & Hb & Hr & Hst & Hdyn & Ho & v & Hget & Hlast).
    rewrite (guarded_read_live j m offset v Hl Ho Hget).
    cbn. split; [reflexivity|]. exists j, m. split; [reflexivity|].
    repeat split; try apply Hl; try assumption.
    + rewrite mapped_app. cbn. lia.
    + apply Forall_app. split; [assumption|]. repeat constructor; cbn; lia.
    + apply reads_follow_app. split; [assumption|]. cbn.
      unfold last_or. rewrite Hlast. tauto.
    + congruence.
    + congruence.
  - (* L_pause *)
    intros (-> & j & m & -> & Hi). cbn [step_self pc cursor].
    pose proof Hi as (Hl & _ & _ & _ & _ & _ & Hlab).
    destruct ph; cbn; (split; [reflexivity|]); exists j, m;
      (split; [reflexivity|]);
      (eapply late_inv_quiet; [exact Hi|quiet_tac|exact Hlab]).
  - (* L_idle *)
    intros (-> & j & m & -> & Hi). cbn [step_self pc cursor].
    pose proof Hi as (Hl & _ & _ & _ & _ & _ & Hlab).
    cbn. split; [reflexivity|]. exists j, m. split; [reflexivity|].
    eapply late_inv_quiet; [exact Hi|quiet_tac|exact Hlab].
  - (* L_cleanup *)
    intros [].
  - (* L_halt *)
    intros H. exact H.
Qed.


Lemma inv_run (n : nat) (s : state) : inv args s -> inv args (run h args n s).
Proof.
  revert s. induction n as [|n IH]; intros s Hs; [exact Hs|].
  cbn [run]. apply IH, inv_step, Hs.
Qed.

Lemma inv_reachable (n : nat) : inv args (run h args n initial).
Proof. apply inv_run, inv_initial. Qed.

Lemma run_add (n k : nat) (s : state) :
  run h args (n + k) s = run h args k (run h args n s).
Proof.
  revert s. induction n as [|n IH]; intros s; [reflexivity|].
  cbn [Nat.add run]. apply IH.
Qed.

Lemma run_halt (n : nat) (s : state) (o : outcome) :
  pc s = L_halt o -> run h args n s = s.
Proof.
  intros Hpc. induction n as [|n IH]; [reflexivity|].
  cbn [run]. unfold step. rewrite Hpc. exact IH.
Qed.

(** What SIGINT does once the handler is installed and the region is
    mapped, and once it is installed and the region is not yet mapped. *)
Lemma signal_handler_live (s : state) (j : Jaws) (m : mmap) :
  jaws_instance s = Some j -> live j m ->
  signal_handler s =
  set_instance (set_buffer j None)
    (goto (L_halt (Exited 0))
       [EPrint ctrl_c_msg;
        EMunmap (buffer_size j); EPrint "Memory buffer released."] s).
Proof.
  intros Hj Hl. unfold signal_handler. rewrite Hj, (cleanup_live j m Hl).
  reflexivity.
Qed.

Lemma signal_handler_unmapped (s : state) (j : Jaws) :
  jaws_instance s = Some j -> buffer j = None ->
  signal_handler s =
  set_instance j
    (goto (L_halt (Exited 0))
       [EPrint ctrl_c_msg] s).
Proof.
  intros Hj Hb. unfold signal_handler. rewrite Hj, (cleanup_none j Hb).
  reflexivity.
Qed.


Lemma inv_mapped_point (s : state) :
  inv args s -> mapped_point (pc s) = true ->
  sigint_handler s = true /\
  exists j m, jaws_instance s = Some j /\ late_inv args (pc s) j m (trace s).
Proof. unfold inv. destruct (pc s); cbn; intros H E; try discriminate; exact H. Qed.

Lemma inv_unmapped_point (s : state) :
  inv args s -> mapped_point (pc s) = false ->
  trace s = [] \/
  (exists o, pc s = L_halt o /\ startup_outcome o) /\
  mapped (trace s) = 0 /\ no_access (trace s).
Proof.
  unfold inv. destruct (pc s); cbn; intros H E; try discriminate;
    try (left; tauto).
  right. destruct H as (Ho & Hm & Hn & _). eauto.
Qed.

Lemma no_access_reads_follow (prev : option event) (tr : list event) :
  no_access tr -> reads_follow prev tr.
Proof.
  intros H. revert prev. induction H as [|e tr He _ IH]; intros prev; [exact I|].
  simpl. split; [destruct e; easy|apply IH].
Qed.

Lemma inv_reads_follow (s : state) : inv args s -> reads_follow None (trace s).
Proof.
  intros Hinv. destruct (mapped_point (pc s)) eqn:E.
  - destruct (inv_mapped_point s Hinv E) as (_ & j & m & _ & Hl). apply Hl.
  - destruct (inv_unmapped_point s Hinv E) as [-> | (_ & _ & Hn)]; [exact I|].
    apply no_access_reads_follow, Hn.
Qed.

Lemma inv_unmapped_buffer (s : state) (j : Jaws) :
  inv args s -> mapped_point (pc s) = false ->
  jaws_instance s = Some j -> buffer j = None.
Proof.
  unfold inv. destruct (pc s); cbn; intros H E Hj; try discriminate.
  - destruct H as (H & _). congruence.
  - destruct H as (H & _). congruence.
  - destruct H as (_ & _ & j' & Hj' & Hb & _). congruence.
  - destruct H as (_ & _ & j' & Hj' & Hb & _). congruence.
  - destruct H.
  - apply H, Hj.
Qed.

(** SIGINT never touches the region: whatever it appends to the trace is
    free of reads and writes. *)
Lemma deliver_sigint_trace (s : state) :
  exists evs, trace (deliver_sigint s) = trace s ++ evs /\ no_access evs.
Proof.
  unfold deliver_sigint.
  assert (Hid : exists evs, trace s = trace s ++ evs /\ no_access evs).
  { exists []. rewrite app_nil_r. split; [reflexivity|constructor]. }
  destruct (pc s) eqn:Hpc; try exact Hid;
    (destruct (sigint_handler s);
     [ unfold signal_handler;
       destruct (jaws_instance s) as [j|];
       [ unfold cleanup, truthy, mmap_close;
         destruct (buffer j) as [m|];
         [ destruct (mm_closed m), (mm_len m =? 0), (0 <? mm_exports m)%nat |];
         cbn; eexists; (split; [reflexivity|repeat constructor])
       | cbn; eexists; (split; [reflexivity|repeat constructor]) ]
     | unfold default_int_handler; rewrite Hpc; cbn;
       eexists; (split; [reflexivity|repeat constructor]) ]).
Qed.

Lemma deliver_sigint_mapped (s : state) :
  inv args s -> mapped_point (pc s) = true ->
  exists j,
    jaws_instance s = Some j /\ mapped (trace s) = 1 /\
    deliver_sigint s =
    set_instance (set_buffer j None)
      (goto (L_halt (Exited 0))
         [EPrint ctrl_c_msg; EMunmap (buffer_size j);
          EPrint "Memory buffer released."] s).
Proof.
  intros Hinv E.
  destruct (inv_mapped_point s Hinv E) as (Hh & j & m & Hj & Hl & _ & Hm & _).
  exists j. split; [exact Hj|]. split; [exact Hm|].
  unfold deliver_sigint. rewrite Hh, (signal_handler_live s j m Hj Hl).
  destruct (pc s); try discriminate; reflexivity.
Qed.

Lemma deliver_sigint_create (s : state) :
  inv args s -> pc s = L_create ->
  exists j,
    jaws_instance s = Some j /\ buffer j = None /\ trace s = [] /\
    deliver_sigint s =
    set_instance j (goto (L_halt (Exited 0)) [EPrint ctrl_c_msg] s).
Proof.
  unfold inv. intros Hinv Hpc. rewrite Hpc in Hinv.
  destruct Hinv as (Hh & Htr & j & Hj & Hb & _).
  exists j. repeat split; try assumption.
  unfold deliver_sigint. rewrite Hpc, Hh, (signal_handler_unmapped s j Hj Hb).
  reflexivity.
Qed.

Lemma deliver_sigint_early (s : state) :
  inv args s ->
  pc s = L_parse \/ (exists pct, pc s = L_construct pct) \/ pc s = L_signal ->
  trace s = [] /\
  deliver_sigint s = goto (L_halt (Uncaught KeyboardInterrupt)) [] s.
Proof.
  unfold inv, deliver_sigint, default_int_handler.
  intros Hinv [Hpc | [[pct Hpc] | Hpc]]; rewrite Hpc in *;
    destruct Hinv as (H1 & H2 & H3); cbn.
  - rewrite H2. split; [exact H3|reflexivity].
  - rewrite H2. split; [exact H3|reflexivity].
  - rewrite H1. split; [exact H2|reflexivity].
Qed.

End Machine.

(** The same write-then-read round trip on the mmap object alone. *)
Lemma mmap_set_get (m m' : mmap) (i v : Z) :
  mmap_setitem m i v = Ok m' -> mmap_getitem m' i = Ok v.
Proof.
  unfold mmap_setitem, mmap_getitem. intros H.
  destruct (mmap_index m i) as [i'|e] eqn:Hi; [|discriminate].
  cbn [bind] in H.
  destruct ((v <? 0) || (255 <? v)); [discriminate|].
  injection H as <-.
  unfold mmap_index in *. cbn [mm_closed mm_len mm_data].
  rewrite Hi. cbn [bind]. rewrite lookup_insert_eq. reflexivity.
Qed.

(** ** One iteration of the Dynamic loop *)

Lemma random_unit (r : Z) : (0 <= random r /\ random r <= 1)%Q.
Proof.
  unfold random, Qle. cbn [Qnum Qden].
  pose proof (Z.mod_pos_bound r (2 ^ 53) ltac:(reflexivity)) as H.
  change (Z.pos (2 ^ 53)%positive) with (2 ^ 53). lia.
Qed.

Lemma uniform_bounds (r : Z) (lo hi : Q) :
  (lo <= hi)%Q -> (lo <= uniform r lo hi /\ uniform r lo hi <= hi)%Q.
Proof.
  intros Hle. unfold uniform. destruct (random_unit r) as [H0 H1].
  set (u := random r) in *. split; nra.
Qed.

Ltac step_tac :=
  cbn [pc jaws_instance step_self cursor consume goto set_instance
       sigint_handler trace].

Ltac state_norm :=
  unfold goto, consume, set_instance;
  cbn [pc jaws_instance sigint_handler cursor trace].

Section Loop.

Variable h : host.
Variable args : Namespace.

Lemma access_runs (ph : phase) (k : nat) (j : Jaws) (m : mmap) (hd : bool)
    (c : nat) (tr : list event) :
  live j m ->
  exists offset v m',
    0 <= offset < buffer_size j /\ 0 <= v <= 255 /\
    live (set_buffer j (Some m')) m' /\
    run h args 3
      {| pc := L_offset ph (S k); jaws_instance := Some j;
         sigint_handler := hd; cursor := c; trace := tr |} =
    {| pc := L_offset ph k; jaws_instance := Some (set_buffer j (Some m'));
       sigint_handler := hd; cursor := S (S c);
       trace := tr ++ access_events (buffer_size j) offset v |}.
Proof.
  intros Hl. pose proof Hl as (_ & _ & _ & _ & Hpos).
  destruct (randint_ok (draws h c) 0 (buffer_size j - 1) ltac:(lia))
    as (offset & Hoff & Ho).
  assert (Ho' : 0 <= offset < buffer_size j) by lia.
  destruct (guarded_write_live j m offset (draws h (S c)) Hl Ho')
    as (v & m' & Hv & Hw & Hl' & Hget).
  exists offset, v, m'. repeat split; try apply Hl'; try lia.
  cbn [run]. unfold step at 3. step_tac. rewrite Hoff. step_tac.
  unfold step at 2. step_tac. rewrite Hw. step_tac.
  unfold step. step_tac.
  rewrite (guarded_read_live _ m' offset v Hl' Ho' Hget). step_tac.
  state_norm. unfold access_events. rewrite <- !app_assoc. reflexivity.
Qed.

Lemma burst_runs (ph : phase) (k : nat) :
  forall (j : Jaws) (m : mmap) (hd : bool) (c : nat) (tr : list event),
  live j m ->
  exists acc j' m' c',
    live j' m' /\ buffer_size j' = buffer_size j /\
    burst_events (buffer_size j) k acc /\
    run h args (3 * k)
      {| pc := L_offset ph k; jaws_instance := Some j;
         sigint_handler := hd; cursor := c; trace := tr |} =
    {| pc := L_offset ph 0; jaws_instance := Some j';
       sigint_handler := hd; cursor := c'; trace := tr ++ acc |}.
Proof.
  induction k as [|k IH]; intros j m hd c tr Hl.
  - exists [], j, m, c. rewrite app_nil_r.
    repeat split; try apply Hl. constructor.
  - destruct (access_runs ph k j m hd c tr Hl)
      as (offset & v & m1 & Ho & Hv & Hl1 & Hrun).
    destruct (IH _ m1 hd (S (S c)) (tr ++ access_events (buffer_size j) offset v) Hl1)
      as (acc & j' & m' & c' & Hl' & Hsz & Hb & Hrun').
    exists (access_events (buffer_size j) offset v ++ acc), j', m', c'.
    split; [exact Hl'|]. split; [exact Hsz|].
    split; [constructor; assumption|].
    replace (3 * S k)%nat with (3 + 3 * k)%nat by lia.
    rewrite run_add, Hrun, Hrun', <- app_assoc. reflexivity.
Qed.

Lemma phase_runs (ph : phase) (j : Jaws) (m : mmap) (hd : bool) (c : nat)
    (tr : list event) :
  live j m ->
  exists cnt d acc j' m' c',
    fst (burst_bounds ph) <= cnt <= snd (burst_bounds ph) /\
    (fst (pause_bounds ph) <= d /\ d <= snd (pause_bounds ph))%Q /\
    live j' m' /\ buffer_size j' = buffer_size j /\
    burst_events (buffer_size j) (Z.to_nat cnt) acc /\
    run h args (3 * Z.to_nat cnt + 3)
      {| pc := L_burst ph; jaws_instance := Some j;
         sigint_handler := hd; cursor := c; trace := tr |} =
    {| pc := L_burst (next_phase ph); jaws_instance := Some j';
       sigint_handler := hd; cursor := c';
       trace := tr ++ [ERandInt (fst (burst_bounds ph)) (snd (burst_bounds ph)) cnt]
                  ++ acc
                  ++ [EUniform (fst (pause_bounds ph)) (snd (pause_bounds ph)) d;
                      ESleep d] |}.
Proof.
  intros Hl.
  assert (Hbb : fst (burst_bounds ph) <= snd (burst_bounds ph))
    by (destruct ph; cbn; lia).
  assert (Hpb : (fst (pause_bounds ph) <= snd (pause_bounds ph))%Q)
    by (destruct ph; cbn; unfold Qle; cbn; lia).
  destruct (randint_ok (draws h c) _ _ Hbb) as (cnt & Hcnt & Hc).
  destruct (burst_runs ph (Z.to_nat cnt) j m hd (S c)
              (tr ++ [ERandInt (fst (burst_bounds ph)) (snd (burst_bounds ph)) cnt]) Hl)
    as (acc & j' & m' & c' & Hl' & Hsz & Hb & Hrun).
  exists cnt, (uniform (draws h c') (fst (pause_bounds ph)) (snd (pause_bounds ph))),
    acc, j', m', (S c').
  split; [exact Hc|]. split; [apply uniform_bounds, Hpb|].
  split; [exact Hl'|]. split; [exact Hsz|]. split; [exact Hb|].
  replace (3 * Z.to_nat cnt + 3)%nat with (1 + (3 * Z.to_nat cnt + 2))%nat by lia.
  rewrite run_add.
  assert (H1 : run h args 1
                 {| pc := L_burst ph; jaws_instance := Some j;
                    sigint_handler := hd; cursor := c; trace := tr |} =
               {| pc := L_offset ph (Z.to_nat cnt); jaws_instance := Some j;
                  sigint_handler := hd; cursor := S c;
                  trace := tr ++ [ERandInt (fst (burst_bounds ph))
                                     (snd (burst_bounds ph)) cnt] |}).
  { cbn [run]. unfold step. step_tac.
    destruct (burst_bounds ph) as [lo hi]. cbn [fst snd] in *.
    rewrite Hcnt. state_norm. reflexivity. }
  rewrite H1, run_add, Hrun.
  cbn [run]. unfold step at 2. step_tac.
  unfold step. step_tac.
  destruct (pause_bounds ph) as [lo hi]. cbn [fst snd]. step_tac.
  state_norm. rewrite app_nil_r, <- !app_assoc. reflexivity.
Qed.

End Loop.

(** * The properties of the specification *)

(** C1, as the code has it.  For the three tiers and a total memory below
    2^51 bytes, the size [Jaws.__init__] computes through binary64 is exactly
    floor(total * pct / 100) rounded down to a multiple of the page size: a
    non-negative multiple of the page size that is at most total * pct / 100. *)
Theorem computed_buffer_size_tiers (pct total page : Z) :
  pct = 30 \/ pct = 50 \/ pct = 75 -> 0 <= total < 2 ^ 51 -> 0 < page ->
  let bytes := total * pct / 100 / page * page in
  computed_buffer_size pct total page = Ok bytes /\
  0 <= bytes /\ (page | bytes) /\ 100 * bytes <= total * pct.
Proof.
  intros Hpct Htotal Hpage bytes.
  pose proof (tier_bytes pct total Hpct Htotal) as Hb.
  assert (Hk : 0 <= total * pct / 100).
  { apply Z.div_pos; [|lia]. destruct Hpct as [-> | [-> | ->]]; lia. }
  split; [|split; [|split]].
  - unfold computed_buffer_size.
    destruct (Float.int_truediv pct 100) as [frac|e]; [|discriminate].
    cbn [bind] in *.
    destruct (Float.int_mul total frac) as [prod|e]; [|discriminate].
    cbn [bind] in *. rewrite Hb. cbn [bind].
    destruct (Z.eqb_spec page 0); [lia|reflexivity].
  - apply Z.mul_nonneg_nonneg; [|lia]. apply Z.div_pos; lia.
  - apply Z.divide_factor_r.
  - pose proof (Z.mul_div_le (total * pct / 100) page Hpage).
    pose proof (Z.mul_div_le (total * pct) 100 ltac:(lia)).
    unfold bytes. lia.
Qed.

Lemma computed_buffer_size_tiers_witness :
  computed_buffer_size 30 100000 4096 = Ok 28672.
Proof.
  apply (computed_buffer_size_tiers 30 100000 4096); [tauto|lia|lia].
Defined.

(** C1 as stated fails for large memories: at 75% of 3002399751591253 bytes
    with 4096-byte pages the binary64 product rounds up across a page
    boundary, and the computed size exceeds total * pct / 100. *)
Lemma computed_buffer_size_counterexample :
  computed_buffer_size 75 3002399751591253 4096 = Ok 2251799813693440 /\
  3002399751591253 * 75 / 100 / 4096 * 4096 = 2251799813689344 /\
  ~ (100 * 2251799813693440 <= 3002399751591253 * 75).
Proof.
  split; [vm_compute; reflexivity|]. split; [reflexivity|lia].
Qed.

(** C2. In Dynamic mode every offset the run generates lies in
    [0, buffer_size): at each guarded write and read the pending offset is in
    bounds, every access the trace records is in bounds, no run ends in an
    [IndexError], and both guards skip the access when the offset is not
    below [buffer_size]. *)
Theorem dynamic_offsets_in_bounds (h : host) (args : Namespace) (n : nat) :
  let s := run h args n initial in
  (forall ph k offset,
      pc s = L_write ph k offset \/ pc s = L_read ph k offset ->
      exists j, jaws_instance s = Some j /\ 0 <= offset < buffer_size j) /\
  (forall e, In e (trace s) -> is_access e = true ->
      exists j, jaws_instance s = Some j /\ access_in_bounds (buffer_size j) e) /\
  (forall o, pc s = L_halt o -> o <> Uncaught IndexError) /\
  (forall self offset r,
      buffer_size self <= offset ->
      guarded_write self offset r = ([], Ok (self, false)) /\
      guarded_read self offset = ([], Ok tt)).
Proof.
  intros s. pose proof (inv_reachable h args n) as Hinv. fold s in Hinv.
  repeat split.
  - intros ph k offset Hpc.
    assert (E : mapped_point (pc s) = true) by (destruct Hpc as [-> | ->]; reflexivity).
    destruct (inv_mapped_point args s Hinv E) as (_ & j & m & Hj & Hl).
    exists j. split; [exact Hj|].
    destruct Hl as (_ & _ & _ & _ & _ & _ & Hlab).
    destruct Hpc as [Hpc | Hpc]; rewrite Hpc in Hlab; cbn in Hlab; tauto.
  - intros e Hin He.
    destruct (mapped_point (pc s)) eqn:E.
    + destruct (inv_mapped_point args s Hinv E) as (_ & j & m & Hj & Hl).
      exists j. split; [exact Hj|].
      destruct Hl as (_ & _ & _ & Hb & _).
      rewrite List.Forall_forall in Hb. apply Hb, Hin.
    + destruct (inv_unmapped_point args s Hinv E) as [Hnil | (_ & _ & Hn)].
      * rewrite Hnil in Hin. destruct Hin.
      * unfold no_access in Hn. rewrite List.Forall_forall in Hn.
        apply Hn in Hin. congruence.
  - intros o Hpc ->. unfold inv in Hinv. rewrite Hpc in Hinv.
    destruct Hinv as ([H | [H | H]] & _); discriminate.
  - unfold guarded_write. destruct (Z.ltb_spec offset (buffer_size self)); [lia|].
    reflexivity.
  - unfold guarded_read. destruct (Z.ltb_spec offset (buffer_size self)); [lia|].
    reflexivity.
Qed.

(** C3, as the code has it.  SIGINT at any program point after line 156 of
    [main], where the handler is installed -- before the region is mapped, at
    any statement of the Dynamic loop and its pauses, in the Static idle
    wait: the process exits with status 0, the instance holds no region and
    no mapped region is left behind. *)
Theorem sigint_exits_cleanly_once_registered (h : host) (args : Namespace)
    (n : nat) :
  let s := run h args n initial in
  handled_point (pc s) = true ->
  let s' := deliver_sigint s in
  succeeded s' /\ mapped (trace s') = 0 /\
  forall j, jaws_instance s' = Some j -> buffer j = None.
Proof.
  intros s Hh s'. pose proof (inv_reachable h args n) as Hinv. fold s in Hinv.
  assert (Hcases : pc s = L_create \/ mapped_point (pc s) = true).
  { destruct (pc s) eqn:Hpc; cbn in Hh |- *; try discriminate; auto.
    unfold inv in Hinv. rewrite Hpc in Hinv. destruct Hinv. }
  destruct Hcases as [Hpc | Hm].
  - destruct (deliver_sigint_create args s Hinv Hpc) as (j & Hj & Hb & Htr & Hs').
    fold s' in Hs'. rewrite Hs'. cbn. rewrite Htr.
    split; [reflexivity|]. split; [reflexivity|]. intros j' [= <-]. exact Hb.
  - destruct (deliver_sigint_mapped args s Hinv Hm) as (j & Hj & Hmp & Hs').
    fold s' in Hs'. rewrite Hs'. cbn.
    split; [reflexivity|]. split; [rewrite mapped_app; cbn; lia|].
    intros j' [= <-]. reflexivity.
Qed.

Lemma sigint_exits_cleanly_once_registered_witness :
  (pc (run example_host low_static_args 9 initial) = L_idle /\
   succeeded (deliver_sigint (run example_host low_static_args 9 initial))) /\
  (pc (run example_host low_args 63 initial) = L_pause Primary /\
   succeeded (deliver_sigint (run example_host low_args 63 initial))) /\
  (pc (run example_host low_args 3 initial) = L_create /\
   succeeded (deliver_sigint (run example_host low_args 3 initial))).
Proof.
  split; [|split].
  - split; [reflexivity|].
    apply (sigint_exits_cleanly_once_registered example_host low_static_args 9).
    reflexivity.
  - split; [reflexivity|].
    apply (sigint_exits_cleanly_once_registered example_host low_args 63).
    reflexivity.
  - split; [reflexivity|].
    apply (sigint_exits_cleanly_once_registered example_host low_args 3).
    reflexivity.
Defined.

(** C3 as stated fails: SIGINT while the instance is being constructed,
    before any region exists, ends the process with [KeyboardInterrupt]. *)
Lemma sigint_before_registration_counterexample :
  let s := run example_host low_args 1 initial in
  pc s = L_construct 30 /\ mapped (trace s) = 0 /\
  pc (deliver_sigint s) = L_halt (Uncaught KeyboardInterrupt) /\
  ~ succeeded (deliver_sigint s).
Proof. repeat split. discriminate. Qed.

(** C4. [cleanup] never raises, a second [cleanup] does nothing at all, on
    a handle that was never acquired the first one does nothing either, and
    a mapped region is gone after the first. *)
Theorem cleanup_idempotent (j : Jaws) :
  handle_valid j ->
  exists evs j1,
    cleanup j = (evs, Ok j1) /\
    cleanup j1 = ([], Ok j1) /\
    (buffer j = None -> evs = [] /\ j1 = j) /\
    (forall m, buffer j = Some m -> mm_len m <> 0 -> buffer j1 = None).
Proof.
  unfold handle_valid. intros Hv.
  destruct (buffer j) as [m|] eqn:Hb.
  - destruct (Z.eqb_spec (mm_len m) 0) as [Hz|Hz].
    + assert (Hc : cleanup j = ([], Ok j)).
      { unfold cleanup, truthy. rewrite Hb, Hv, Hz. reflexivity. }
      exists [], j. split; [exact Hc|]. split; [exact Hc|].
      split; [discriminate|]. intros m' [= <-] Hm'. contradiction.
    + assert (Ht : truthy (buffer j) = Ok true).
      { unfold truthy. rewrite Hb, Hv.
        destruct (Z.eqb_spec (mm_len m) 0); [contradiction|reflexivity]. }
      unfold cleanup at 1. rewrite Ht, Hb.
      destruct (mmap_close m) as [evs|e]; eexists _, _;
        (split; [reflexivity|]); (split; [reflexivity|]);
        (split; [discriminate|reflexivity]).
  - assert (Hc : cleanup j = ([], Ok j)) by (apply cleanup_none, Hb).
    exists [], j. split; [exact Hc|]. split; [exact Hc|].
    split; [tauto|]. discriminate.
Qed.

Lemma cleanup_idempotent_witness :
  exists evs j1,
    cleanup {| percentage := 30; static_mode := false; buffer := None;
               buffer_size := 28672; page_size := 4096 |} = (evs, Ok j1) /\
    cleanup j1 = ([], Ok j1).
Proof.
  destruct (cleanup_idempotent
              {| percentage := 30; static_mode := false; buffer := None;
                 buffer_size := 28672; page_size := 4096 |} I)
    as (evs & j1 & H1 & H2 & _).
  exists evs, j1. split; [exact H1|exact H2].
Defined.

(** C5. When the computed size is zero, the process prints the error and
    exits with status 1 at construction, and no run ever attempts a
    mapping. *)
Theorem zero_size_is_configuration_error (h : host) (args : Namespace)
    (pct : Z) (n : nat) :
  select_percentage args = ([], Ok pct) ->
  computed_buffer_size pct (total_memory h) (getpagesize h) = Ok 0 ->
  let s := run h args n initial in
  Forall (fun e => is_mmap e = false) (trace s) /\
  ((2 <= n)%nat ->
   pc s = L_halt (Exited 1) /\ trace s = [EPrint zero_size_msg]).
Proof.
  intros Hsel Hsize s.
  assert (H2 : run h args 2 initial =
               goto (L_halt (Exited 1)) [EPrint zero_size_msg]
                 (goto (L_construct pct) [] initial)).
  { cbn [run]. unfold step at 2. cbn [pc initial]. rewrite Hsel.
    unfold step. cbn [pc goto]. unfold Jaws_init. rewrite Hsize. reflexivity. }
  destruct n as [|[|n]].
  - split; [constructor|lia].
  - split; [|lia]. subst s. cbn [run]. unfold step. cbn [pc initial].
    rewrite Hsel. constructor.
  - assert (Hs : s = run h args 2 initial).
    { subst s. change (S (S n)) with (2 + n)%nat.
      rewrite run_add, H2. eapply run_halt. reflexivity. }
    rewrite Hs, H2. cbn. split; [repeat constructor|]. intros _. split; reflexivity.
Qed.

Lemma zero_size_is_configuration_error_witness :
  let s := run tiny_host low_args 5 initial in
  Forall (fun e => is_mmap e = false) (trace s) /\
  pc s = L_halt (Exited 1) /\ trace s = [EPrint zero_size_msg].
Proof.
  destruct (zero_size_is_configuration_error tiny_host low_args 30 5
              eq_refl eq_refl) as (H1 & H2).
  split; [exact H1|]. apply H2. lia.
Defined.

(** C6. Every iteration of the Dynamic loop, from the loop head back to the
    loop head: [randint(5, 20)] accesses, a sleep of [uniform(0.01, 0.2)],
    [randint(1, 5)] accesses, a sleep of [uniform(0.1, 1.5)], in this order,
    each drawn value within its bounds. *)
Theorem dynamic_iteration_shape (h : host) (args : Namespace) (n : nat) :
  let s := run h args n initial in
  pc s = L_burst Primary ->
  exists j n1 n2 d1 d2 acc1 acc2,
    jaws_instance s = Some j /\
    5 <= n1 <= 20 /\ 1 <= n2 <= 5 /\
    (Qmake 1 100 <= d1 /\ d1 <= Qmake 1 5)%Q /\
    (Qmake 1 10 <= d2 /\ d2 <= Qmake 3 2)%Q /\
    burst_events (buffer_size j) (Z.to_nat n1) acc1 /\
    burst_events (buffer_size j) (Z.to_nat n2) acc2 /\
    let s' := run h args ((3 * Z.to_nat n1 + 3) + (3 * Z.to_nat n2 + 3)) s in
    pc s' = L_burst Primary /\
    trace s' =
      trace s
      ++ ([ERandInt 5 20 n1] ++ acc1
          ++ [EUniform (Qmake 1 100) (Qmake 1 5) d1; ESleep d1])
      ++ ([ERandInt 1 5 n2] ++ acc2
          ++ [EUniform (Qmake 1 10) (Qmake 3 2) d2; ESleep d2]).
Proof.
  intros s Hpc. pose proof (inv_reachable h args n) as Hinv. fold s in Hinv.
  assert (E : mapped_point (pc s) = true) by (rewrite Hpc; reflexivity).
  destruct (inv_mapped_point args s Hinv E) as (_ & j & m & Hj & Hl & _).
  destruct s as [l ji hd c tr]. cbn [pc jaws_instance trace] in *. subst l ji.
  destruct (phase_runs h args Primary j m hd c tr Hl)
    as (n1 & d1 & acc1 & j1 & m1 & c1 & Hn1 & Hd1 & Hl1 & Hsz1 & Hb1 & Hrun1).
  cbn [burst_bounds pause_bounds next_phase fst snd] in *.
  destruct (phase_runs h args Secondary j1 m1 hd c1
              (tr ++ [ERandInt 5 20 n1] ++ acc1
                  ++ [EUniform (Qmake 1 100) (Qmake 1 5) d1; ESleep d1]) Hl1)
    as (n2 & d2 & acc2 & j2 & m2 & c2 & Hn2 & Hd2 & Hl2 & Hsz2 & Hb2 & Hrun2).
  cbn [burst_bounds pause_bounds next_phase fst snd] in *.
  exists j, n1, n2, d1, d2, acc1, acc2.
  split; [reflexivity|]. split; [exact Hn1|]. split; [exact Hn2|].
  split; [exact Hd1|]. split; [exact Hd2|]. split; [exact Hb1|].
  split; [rewrite <- Hsz1; exact Hb2|].
  cbv zeta. rewrite run_add, Hrun1, Hrun2. cbn [pc trace].
  split; [reflexivity|]. rewrite <- !app_assoc. reflexivity.
Qed.

Lemma dynamic_iteration_shape_witness :
  exists n1 n2,
    5 <= n1 <= 20 /\ 1 <= n2 <= 5 /\
    pc (run example_host low_args
          ((3 * Z.to_nat n1 + 3) + (3 * Z.to_nat n2 + 3))
          (run example_host low_args 7 initial)) = L_burst Primary.
Proof.
  destruct (dynamic_iteration_shape example_host low_args 7 eq_refl)
    as (j & n1 & n2 & d1 & d2 & acc1 & acc2 & _ & H1 & H2 & _ & _ & _ & _ & H3 & _).
  exists n1, n2. split; [exact H1|]. split; [exact H2|exact H3].
Defined.

(** C7 as stated fails: with [-low] and [-high] together the code selects
    30, the tier of the first branch that matches, where "last matched wins"
    gives 75. *)
Lemma last_matched_wins_counterexample :
  select_percentage low_high_args = ([], Ok 30) /\
  last_matched_wins low_high_args = Some 75 /\
  ~ (forall args pct,
        select_percentage args = ([], Ok pct) ->
        last_matched_wins args = Some pct).
Proof.
  split; [reflexivity|]. split; [reflexivity|].
  intros H. specialize (H low_high_args 30 eq_refl). discriminate.
Qed.

(** C7, as the code has it: the first branch that matches wins, in the
    order [-low], [-mid], [-high]; whatever tier flags come after the first
    match are ignored. *)
Theorem first_matched_wins (args : Namespace) :
  (low args = true -> select_percentage args = ([], Ok 30)) /\
  (low args = false -> mid args = true ->
   select_percentage args = ([], Ok 50)) /\
  (low args = false -> mid args = false -> high args = true ->
   select_percentage args = ([], Ok 75)).
Proof.
  unfold select_percentage.
  destruct (low args), (mid args), (high args); repeat split; easy.
Qed.

Lemma first_matched_wins_witness :
  select_percentage low_high_args = ([], Ok 30).
Proof.
  destruct (first_matched_wins low_high_args) as (H & _). apply H. reflexivity.
Defined.

(** C8. In Static mode no byte of the region is ever read or written, also
    not by the release that SIGINT triggers, and every byte of the mapped
    region still reads as zero. *)
Theorem static_region_untouched (h : host) (args : Namespace) (n : nat) :
  static args = true ->
  let s := run h args n initial in
  no_access (trace s) /\
  no_access (trace (deliver_sigint s)) /\
  (forall ph k offset,
      pc s <> L_write ph k offset /\ pc s <> L_read ph k offset) /\
  (forall j m,
      jaws_instance s = Some j -> buffer j = Some m ->
      mm_data m = ∅ /\
      forall i, 0 <= i < mm_len m -> mmap_getitem m i = Ok 0).
Proof.
  intros Hst s. pose proof (inv_reachable h args n) as Hinv. fold s in Hinv.
  assert (Hna : no_access (trace s)).
  { destruct (mapped_point (pc s)) eqn:E.
    - destruct (inv_mapped_point args s Hinv E)
        as (_ & j & m & _ & _ & _ & _ & _ & _ & H & _).
      apply H, Hst.
    - destruct (inv_unmapped_point args s Hinv E) as [-> | (_ & _ & Hn)];
        [constructor|exact Hn]. }
  split; [exact Hna|]. split; [|split].
  - destruct (deliver_sigint_trace s) as (evs & -> & Hevs).
    apply Forall_app. split; assumption.
  - intros ph k offset.
    assert (Hdyn : forall l, pc s = l ->
              match l with L_write _ _ _ | L_read _ _ _ => False | _ => True end).
    { intros l Hl. destruct l; try exact I.
      - assert (E : mapped_point (pc s) = true) by (rewrite Hl; reflexivity).
        destruct (inv_mapped_point args s Hinv E)
          as (_ & j & m & _ & _ & Hs & _ & _ & _ & _ & Hlab).
        rewrite Hl in Hlab. cbn in Hlab. destruct Hlab as (Hf & _). congruence.
      - assert (E : mapped_point (pc s) = true) by (rewrite Hl; reflexivity).
        destruct (inv_mapped_point args s Hinv E)
          as (_ & j & m & _ & _ & Hs & _ & _ & _ & _ & Hlab).
        rewrite Hl in Hlab. cbn in Hlab. destruct Hlab as (Hf & _). congruence. }
    split; intros Hpc; exact (Hdyn _ Hpc).
  - intros j m Hj Hb.
    destruct (mapped_point (pc s)) eqn:E.
    + destruct (inv_mapped_point args s Hinv E)
        as (_ & j' & m' & Hj' & Hl & _ & _ & _ & _ & H & _).
      assert (j' = j) by congruence. subst j'.
      assert (m' = m) by (destruct Hl as (Hb' & _); congruence). subst m'.
      destruct (H Hst) as (Hd & _). split; [exact Hd|].
      intros i Hi.
      rewrite (mmap_getitem_live j m i Hl)
        by (destruct Hl as (_ & _ & _ & <- & _); exact Hi).
      rewrite Hd, lookup_empty. reflexivity.
    + rewrite (inv_unmapped_buffer args s j Hinv E Hj) in Hb. discriminate.
Qed.

Lemma static_region_untouched_witness :
  let s := run example_host low_static_args 12 initial in
  pc s = L_idle /\ mapped (trace s) = 1 /\
  no_access (trace s) /\ no_access (trace (deliver_sigint s)).
Proof.
  split; [reflexivity|]. split; [reflexivity|].
  pose proof (static_region_untouched example_host low_static_args 12 eq_refl)
    as (H1 & H2 & _).
  split; [exact H1|exact H2].
Defined.

(** C9. Every read a run performs comes immediately after a write at the
    same offset and returns the byte that write stored. *)
Theorem read_returns_written_byte (h : host) (args : Namespace) (n : nat)
    (pre post : list event) (offset v : Z) :
  trace (run h args n initial) = pre ++ ERead offset v :: post ->
  exists pre', pre = pre' ++ [EWrite offset v].
Proof.
  intros Htr. eapply reads_follow_spec; [|exact Htr].
  apply (inv_reads_follow args), inv_reachable.
Qed.

Lemma read_returns_written_byte_witness :
  exists pre',
    [EMmap 28672 true; EReport 40000 28672;
     EPrint "Starting random memory access. Press Ctrl+C to exit.";
     ERandInt 5 20 18; ERandInt 0 28671 7932; ERandInt 0 255 235;
     EWrite 7932 235] = pre' ++ [EWrite 7932 235].
Proof.
  apply (read_returns_written_byte example_host low_args 11 _ [] 7932 235).
  reflexivity.
Defined.

(** C10. [random_access] on an instance whose buffer is [None] prints its
    error and returns to [run]: no draw, no access, no exception, the
    instance unchanged. *)
Theorem random_access_without_buffer (h : host) (args : Namespace) (s : state)
    (j : Jaws) :
  pc s = L_enter -> jaws_instance s = Some j -> buffer j = None ->
  let s' := step h args s in
  pc s' = L_cleanup /\ jaws_instance s' = Some j /\ cursor s' = cursor s /\
  trace s' = trace s ++ [EPrint "Error: Buffer not created."].
Proof.
  intros Hpc Hj Hb s'. subst s'. unfold step. rewrite Hpc, Hj.
  unfold step_self. rewrite Hpc, Hb. cbn. rewrite Hj. repeat split.
Qed.

Lemma random_access_without_buffer_witness :
  let j := {| percentage := 30; static_mode := false; buffer := None;
              buffer_size := 28672; page_size := 4096 |} in
  let s := {| pc := L_enter; jaws_instance := Some j; sigint_handler := true;
              cursor := 0%nat; trace := [] |} in
  pc (step example_host low_args s) = L_cleanup /\
  trace (step example_host low_args s) = [EPrint "Error: Buffer not created."].
Proof.
  intros j s.
  destruct (random_access_without_buffer example_host low_args s j
              eq_refl eq_refl eq_refl) as (H1 & _ & _ & H2).
  split; [exact H1|exact H2].
Defined.

(** * Further properties of the code *)

Ltac quiet_step :=
  split; [reflexivity|]; split; [discriminate|]; left;
  eexists; split; [|split; reflexivity];
  right; split; [discriminate|repeat constructor].

Section Steps.

Variable h : host.
Variable args : Namespace.

Lemma step_mapped (s : state) :
  inv args s -> mapped_point (pc s) = true ->
  exists j m,
    jaws_instance s = Some j /\ live j m /\
    mapped_point (pc (step h args s)) = true /\
    pc (step h args s) <> L_report /\
    ((exists evs,
         (pc s = L_report /\ evs = report_utilization h j \/
          pc s <> L_report /\ Forall (fun e => loop_event e = true) evs) /\
         trace (step h args s) = trace s ++ evs /\
         jaws_instance (step h args s) = Some j) \/
     (exists offset v m',
         pc s <> L_report /\
         0 <= offset < buffer_size j /\ 0 <= v <= 255 /\
         mmap_setitem m offset v = Ok m' /\
         trace (step h args s) = trace s ++ [ERandInt 0 255 v; EWrite offset v] /\
         jaws_instance (step h args s) = Some (set_buffer j (Some m'))) \/
     (exists offset v,
         pc s <> L_report /\ last (trace s) = Some (EWrite offset v) /\
         mmap_getitem m offset = Ok v /\ 0 <= offset < buffer_size j /\
         trace (step h args s) = trace s ++ [ERead offset v] /\
         jaws_instance (step h args s) = Some j)).
Proof.
  intros Hinv E.
  destruct (inv_mapped_point args s Hinv E) as (Hh & j & m & Hj & Hi).
  pose proof Hi as (Hl & _ & _ & _ & _ & _ & Hlab).
  exists j, m. split; [exact Hj|]. split; [exact Hl|].
  destruct s as [l ji hd c tr]. cbn [pc jaws_instance trace] in *. subst ji.
  unfold step. cbn [pc jaws_instance].
  destruct l as [|pct| | | | | |ph|ph k|ph k offset|ph k offset|ph| | |o];
    try discriminate; cbn [step_self pc cursor].
  - (* L_report *)
    split; [reflexivity|]. split; [discriminate|]. left.
    eexists. split; [left; split; reflexivity|]. split; reflexivity.
  - (* L_mode *)
    destruct (static_mode j); cbn [goto pc]; quiet_step.
  - (* L_enter *)
    rewrite (truthy_live j m Hl). cbn [goto pc]. quiet_step.
  - (* L_burst *)
    assert (Hbb : fst (burst_bounds ph) <= snd (burst_bounds ph))
      by (destruct ph; cbn; lia).
    destruct (randint_ok (draws h c) _ _ Hbb) as (cnt & Hcnt & _).
    destruct (burst_bounds ph) as [lo hi]. cbn [fst snd] in Hcnt.
    rewrite Hcnt. cbn [goto consume pc]. quiet_step.
  - (* L_offset *)
    destruct k as [|k].
    + cbn [goto pc]. quiet_step.
    + pose proof Hl as (_ & _ & _ & _ & Hpos).
      destruct (randint_ok (draws h c) 0 (buffer_size j - 1) ltac:(lia))
        as (off & -> & Hoff). cbn [goto consume pc]. quiet_step.
  - (* L_write *)
    destruct Hlab as (_ & Ho).
    destruct (guarded_write_live j m offset (draws h c) Hl Ho)
      as (v & m' & Hv & Hw & Hl' & Hget).
    rewrite Hw. cbn [goto consume set_instance pc jaws_instance trace].
    split; [reflexivity|]. split; [discriminate|]. right; left.
    exists offset, v, m'. split; [discriminate|].
    split; [exact Ho|]. split; [exact Hv|]. split; [|split; reflexivity].
    revert Hw. unfold guarded_write.
    destruct (offset <? buffer_size j); [|discriminate].
    destruct (randint (draws h c) 0 255) as [v0|]; [|discriminate].
    destruct Hl as (-> & _).
    destruct (mmap_setitem m offset v0) as [m0|] eqn:Hs; [|discriminate].
    intros Hw. assert (Ev : v0 = v) by congruence.
    assert (Eb : buffer (set_buffer j (Some m0)) = buffer (set_buffer j (Some m')))
      by congruence.
    cbn in Eb. congruence.
  - (* L_read *)
    destruct Hlab as (_ & Ho & v & Hget & Hlast).
    rewrite (guarded_read_live j m offset v Hl Ho Hget).
    cbn [goto pc jaws_instance trace].
    split; [reflexivity|]. split; [discriminate|]. right; right.
    exists offset, v. split; [discriminate|]. split; [exact Hlast|].
    split; [exact Hget|]. split; [exact Ho|]. split; reflexivity.
  - (* L_pause *)
    destruct (pause_bounds ph) as [lo hi]. cbn [goto consume pc]. quiet_step.
  - (* L_idle *)
    cbn [goto pc]. quiet_step.
Qed.


Lemma replay_app (a b : list event) (data : gmap Z Z) :
  replay (a ++ b) data = replay b (replay a data).
Proof.
  revert data. induction a as [|e a IH]; intros data; [reflexivity|].
  destruct e; cbn; apply IH.
Qed.

Lemma replay_no_write (evs : list event) (data : gmap Z Z) :
  Forall (fun e => is_access e = false) evs -> replay evs data = data.
Proof.
  intros H. revert data. induction H as [|e evs He _ IH]; intros data;
    [reflexivity|].
  destruct e; try discriminate; cbn; apply IH.
Qed.

Lemma loop_event_no_access (evs : list event) :
  Forall (fun e => loop_event e = true) evs ->
  Forall (fun e => is_access e = false) evs.
Proof.
  intros H. eapply Forall_impl; [exact H|]. intros e He. destruct e; easy.
Qed.

Lemma loop_event_run_event (evs : list event) :
  Forall (fun e => loop_event e = true) evs ->
  Forall (fun e => run_event e = true) evs.
Proof.
  intros H. eapply Forall_impl; [exact H|]. intros e He.
  unfold run_event. rewrite He. reflexivity.
Qed.

Lemma loop_event_byte (evs : list event) :
  Forall (fun e => loop_event e = true) evs -> Forall byte_event evs.
Proof.
  intros H. eapply Forall_impl; [exact H|]. intros e He. destruct e; easy.
Qed.

Lemma mmap_setitem_data (j : Jaws) (m m' : mmap) (offset v : Z) :
  live j m -> 0 <= offset < buffer_size j ->
  mmap_setitem m offset v = Ok m' ->
  mm_data m' = <[offset := v]> (mm_data m).
Proof.
  intros Hl Ho. unfold mmap_setitem.
  rewrite (mmap_index_live j m offset Hl Ho). cbn [bind].
  destruct ((v <? 0) || (255 <? v)); [discriminate|].
  intros [= <-]. reflexivity.
Qed.

Lemma shape_inv_initial : shape_inv h initial.
Proof. cbn. discriminate. Qed.


Lemma fail_mmap_msg (len : Z) (msg : string) :
  msg = ("Error creating buffer: " ++ default EmptyString (mmap_error h))%string ->
  startup_failure h (Exited 1) [EMmap len false; EPrint msg].
Proof. intros ->. constructor. Qed.

Lemma shape_inv_mapped (s : state) :
  mapped_point (pc s) = true -> (shape_inv h s <-> mapped_shape h s).
Proof.
  unfold shape_inv. destruct (pc s); cbn; try discriminate; tauto.
Qed.

Lemma shape_inv_step (s : state) :
  inv args s -> shape_inv h s -> shape_inv h (step h args s).
Proof.
  intros Hinv Hsh. destruct (mapped_point (pc s)) eqn:E.
  - destruct (step_mapped s Hinv E)
      as (j & m & Hj & Hl & Hm' & Hnr & Hcases).
    apply (shape_inv_mapped s E) in Hsh.
    destruct Hsh as (j0 & m0 & rest & Hj0 & Hb0 & Htr & Hrep & Hrest & Hdata & Hbytes).
    assert (j0 = j) by congruence. subst j0.
    assert (m0 = m) by (destruct Hl as (Hb & _); congruence). subst m0.
    apply (shape_inv_mapped _ Hm').
    destruct Hcases as [(evs & Hevs & Htr' & Hj') |
                        [(offset & v & m' & Hpc & Ho & Hv & Hset & Htr' & Hj') |
                         (offset & v & Hpc & Hlast & Hget & Ho & Htr' & Hj')]].
    + exists j, m. destruct Hevs as [(Hpc & ->) | (Hpc & Hloop)].
      * exists (rest ++ report_utilization h j).
        rewrite Htr', Htr, (Hrep Hpc). cbn.
        repeat split; try assumption; try tauto.
        -- intros _. exists []. split; [reflexivity|constructor].
        -- rewrite Hdata, Htr, (Hrep Hpc). reflexivity.
        -- repeat constructor.
      * destruct (Hrest Hpc) as (rest' & -> & Hrun).
        exists (EReport (rss h) (buffer_size j) :: rest' ++ evs).
        rewrite Htr', Htr.
        repeat split; try assumption; try tauto.
        -- intros _. exists (rest' ++ evs). split; [reflexivity|].
           apply Forall_app. split; [exact Hrun|apply loop_event_run_event, Hloop].
        -- rewrite <- Htr, replay_app, <- Hdata.
           symmetry. apply replay_no_write, loop_event_no_access, Hloop.
        -- rewrite <- Htr. apply Forall_app.
           split; [exact Hbytes|apply loop_event_byte, Hloop].
    + destruct (Hrest Hpc) as (rest' & -> & Hrun).
      exists (set_buffer j (Some m')), m',
        (EReport (rss h) (buffer_size j) :: rest'
           ++ [ERandInt 0 255 v; EWrite offset v]).
      rewrite Htr', Htr. cbn [set_buffer buffer buffer_size].
      repeat split; try assumption; try tauto.
      * intros _. eexists. split; [reflexivity|].
        apply Forall_app. split; [exact Hrun|repeat constructor].
      * rewrite (mmap_setitem_data j m m' offset v Hl Ho Hset).
        rewrite <- Htr, replay_app, <- Hdata. reflexivity.
      * rewrite <- Htr. apply Forall_app.
        split; [exact Hbytes|repeat constructor; cbn; lia].
    + destruct (Hrest Hpc) as (rest' & -> & Hrun).
      exists j, m, (EReport (rss h) (buffer_size j) :: rest' ++ [ERead offset v]).
      rewrite Htr', Htr.
      repeat split; try assumption; try tauto.
      * intros _. eexists. split; [reflexivity|].
        apply Forall_app. split; [exact Hrun|repeat constructor].
      * rewrite <- Htr, replay_app, <- Hdata. reflexivity.
      * rewrite <- Htr. apply Forall_app. split; [exact Hbytes|].
        apply last_Some in Hlast as (pre & Hpre). rewrite Hpre in Hbytes.
        apply Forall_app in Hbytes as (_ & Hw).
        inversion Hw as [|? ? Hbv _]; subst.
        constructor; [exact Hbv|constructor].
  - revert Hinv Hsh E. destruct s as [l ji hd c tr].
    unfold inv, shape_inv, step. cbn [pc jaws_instance sigint_handler trace].
    destruct l as [|pct| | | | | |ph|ph k|ph k offset|ph k offset|ph| | |o];
      cbn [mapped_point]; try discriminate.
    + (* L_parse *)
      intros (-> & -> & ->) _ _. unfold select_percentage.
      destruct (low args), (mid args), (high args); cbn;
        try discriminate; constructor.
    + (* L_construct *)
      intros (-> & -> & ->) _ _. unfold Jaws_init.
      destruct (computed_buffer_size pct (total_memory h) (getpagesize h))
        as [bytes|e] eqn:Hc.
      * destruct (Z.eqb_spec bytes 0) as [->|Hb]; cbn;
          [constructor|discriminate].
      * apply computed_buffer_size_exn in Hc.
        destruct Hc as [-> | [-> | ->]]; cbn; constructor; tauto.
    + (* L_create *)
      intros (-> & -> & j & -> & Hb & Hs) _ _. cbn [step_self pc cursor].
      unfold create_buffer, mmap_new.
      destruct (mmap_error h) as [msg|] eqn:Hmsg;
        [cbn; apply fail_mmap_msg; rewrite Hmsg; reflexivity|].
      destruct (Z.ltb_spec (buffer_size j) 0);
        [cbn; apply fail_mmap_msg; rewrite Hmsg; reflexivity|].
      destruct (Z.eqb_spec (buffer_size j) 0);
        [cbn; apply fail_mmap_msg; rewrite Hmsg; reflexivity|].
      cbn. intros _. eexists _, _, []. cbn.
      repeat split; try reflexivity; try tauto; repeat constructor.
    + (* L_cleanup *)
      intros [].
    + (* L_halt *)
      intros _ H _. exact H.
Qed.

Lemma shape_inv_run (n : nat) (s : state) :
  inv args s -> shape_inv h s -> shape_inv h (run h args n s).
Proof.
  revert s. induction n as [|n IH]; intros s Hi Hs; [exact Hs|].
  cbn [run]. apply IH; [apply inv_step, Hi|apply shape_inv_step; assumption].
Qed.

Lemma shape_inv_reachable (n : nat) : shape_inv h (run h args n initial).
Proof. apply shape_inv_run; [apply inv_initial|apply shape_inv_initial]. Qed.

End Steps.

Lemma run_snoc (h : host) (args : Namespace) (n : nat) (s : state) :
  run h args (S n) s = step h args (run h args n s).
Proof.
  replace (S n) with (n + 1)%nat by lia. rewrite run_add. reflexivity.
Qed.

Lemma replay_bytes (tr : list event) :
  Forall byte_event tr ->
  forall data : gmap Z Z,
    (forall i v, data !! i = Some v -> 0 <= v <= 255) ->
    forall i v, replay tr data !! i = Some v -> 0 <= v <= 255.
Proof.
  induction 1 as [|e tr He _ IH]; intros data Hd i v; [apply Hd|].
  destruct e; cbn [replay]; try (apply IH; exact Hd).
  apply IH. intros i' v'. rewrite lookup_insert.
  destruct (decide (offset = i')); [intros [= <-]; exact He|apply Hd].
Qed.

Lemma replay_unwritten (tr : list event) (i : Z) :
  (forall v, ~ In (EWrite i v) tr) ->
  forall data : gmap Z Z, replay tr data !! i = data !! i.
Proof.
  induction tr as [|e tr IH]; intros Hn data; [reflexivity|].
  assert (Hn' : forall v, ~ In (EWrite i v) tr)
    by (intros v Hin; apply (Hn v); right; exact Hin).
  destruct e; cbn [replay]; try (apply IH; exact Hn').
  rewrite (IH Hn'). apply lookup_insert_ne.
  intros ->. apply (Hn v). left. reflexivity.
Qed.



(** X7. Once the region is mapped, an uninterrupted run never ends and never
    releases it: every later state still has it mapped, and the [cleanup] of
    line 110 of [run] is never reached. *)
Theorem region_stays_mapped (h : host) (args : Namespace) (n k : nat) :
  mapped_point (pc (run h args n initial)) = true ->
  mapped_point (pc (run h args (n + k) initial)) = true /\
  mapped (trace (run h args (n + k) initial)) = 1 /\
  (forall o, pc (run h args (n + k) initial) <> L_halt o) /\
  pc (run h args (n + k) initial) <> L_cleanup.
Proof.
  intros Hn.
  assert (Hk : mapped_point (pc (run h args (n + k) initial)) = true).
  { induction k as [|k IH].
    - rewrite Nat.add_0_r. exact Hn.
    - replace (n + S k)%nat with (S (n + k)) by lia. rewrite run_snoc.
      destruct (step_mapped h args _ (inv_reachable h args (n + k)) IH)
        as (_ & _ & _ & _ & H & _). exact H. }
  split; [exact Hk|].
  destruct (inv_mapped_point args _ (inv_reachable h args (n + k)) Hk)
    as (_ & j & m & _ & _ & _ & Hm & _).
  split; [exact Hm|].
  split; [intros o Ho|intros Ho]; rewrite Ho in Hk; discriminate.
Qed.

Lemma region_stays_mapped_witness :
  mapped (trace (run example_host low_args (7 + 500) initial)) = 1.
Proof.
  apply (region_stays_mapped example_host low_args 7 500). reflexivity.
Defined.

(** X8. While the region is mapped, the trace of an uninterrupted run is: the one
    successful [mmap] of [buffer_size] bytes, then (once [run] is past line
    98) the one utilization report, with the resident size of the host and
    [buffer_size] as the requested size, then only events of the access or
    idle phase: no second mapping, no second report, no unmapping. *)
Theorem mapped_trace_shape (h : host) (args : Namespace) (n : nat) :
  let s := run h args n initial in
  mapped_point (pc s) = true ->
  exists j rest,
    jaws_instance s = Some j /\
    trace s = EMmap (buffer_size j) true :: rest /\
    (pc s = L_report -> rest = []) /\
    (pc s <> L_report ->
     exists rest', rest = EReport (rss h) (buffer_size j) :: rest' /\
                   Forall (fun e => run_event e = true) rest').
Proof.
  intros s Hm.
  pose proof (shape_inv_reachable h args n) as Hs. fold s in Hs.
  apply (shape_inv_mapped h s Hm) in Hs.
  destruct Hs as (j & m & rest & Hj & _ & Htr & Hrep & Hrest & _).
  exists j, rest. tauto.
Qed.

Lemma mapped_trace_shape_witness :
  exists j rest,
    jaws_instance (run example_host low_args 40 initial) = Some j /\
    trace (run example_host low_args 40 initial)
    = EMmap (buffer_size j) true :: rest.
Proof.
  destruct (mapped_trace_shape example_host low_args 40
              ltac:(vm_compute; reflexivity))
    as (j & rest & Hj & Htr & _).
  exists j, rest. split; [exact Hj|exact Htr].
Defined.

(** X9. The content of the region is what the writes of the trace put there:
    every byte reads as a value in 0..255, the last one written at its
    offset, and a byte no write has addressed still reads as zero. *)
Theorem region_is_replay_of_writes (h : host) (args : Namespace) (n : nat)
    (j : Jaws) (m : mmap) :
  let s := run h args n initial in
  jaws_instance s = Some j -> buffer j = Some m ->
  mm_data m = replay (trace s) ∅ /\
  Forall byte_event (trace s) /\
  forall i, 0 <= i < buffer_size j ->
    exists v, mmap_getitem m i = Ok v /\ 0 <= v <= 255 /\
              v = default 0 (replay (trace s) ∅ !! i) /\
              ((forall w, ~ In (EWrite i w) (trace s)) -> v = 0).
Proof.
  intros s Hj Hb.
  pose proof (inv_reachable h args n) as Hi. fold s in Hi.
  pose proof (shape_inv_reachable h args n) as Hs. fold s in Hs.
  assert (Hm : mapped_point (pc s) = true).
  { destruct (mapped_point (pc s)) eqn:E; [reflexivity|].
    rewrite (inv_unmapped_buffer args s j Hi E Hj) in Hb. discriminate. }
  apply (shape_inv_mapped h s Hm) in Hs.
  destruct Hs as (j0 & m0 & rest & Hj0 & Hb0 & _ & _ & _ & Hdata & Hbytes).
  assert (j0 = j) by congruence. subst j0.
  assert (m0 = m) by congruence. subst m0.
  destruct (inv_mapped_point args s Hi Hm) as (_ & j1 & m1 & Hj1 & Hl & _).
  assert (j1 = j) by congruence. subst j1.
  assert (m1 = m) by (destruct Hl as (Hb1 & _); congruence). subst m1.
  split; [exact Hdata|]. split; [exact Hbytes|].
  intros i Hi'. exists (default 0 (mm_data m !! i)).
  split; [apply (mmap_getitem_live j m i Hl Hi')|].
  rewrite Hdata. split; [|split; [reflexivity|]].
  - destruct (replay (trace s) ∅ !! i) as [v|] eqn:Ev; cbn; [|lia].
    apply (replay_bytes (trace s) Hbytes ∅) with (i := i); [|exact Ev].
    intros i' v'. rewrite lookup_empty. discriminate.
  - intros Hnw. rewrite (replay_unwritten (trace s) i Hnw), lookup_empty.
    reflexivity.
Qed.

Lemma region_is_replay_of_writes_witness :
  mm_data example_region
  = replay (trace (run example_host low_args 12 initial)) ∅.
Proof.
  apply (region_is_replay_of_writes example_host low_args 12
           example_instance example_region);
    vm_compute; reflexivity.
Defined.

(** X10. The Static idle wait does nothing but sleep one time unit at a time: it
    prints nothing, draws no random number and leaves the instance alone. *)
Theorem idle_wait_only_sleeps (h : host) (args : Namespace) (n k : nat) :
  let s := run h args n initial in
  pc s = L_idle ->
  let s' := run h args (n + k) initial in
  pc s' = L_idle /\ trace s' = trace s ++ repeat (ESleep (Qmake 1 1)) k /\
  cursor s' = cursor s /\ jaws_instance s' = jaws_instance s.
Proof.
  intros s Hpc s'. subst s'.
  pose proof (inv_reachable h args n) as Hi. fold s in Hi.
  assert (Hm : mapped_point (pc s) = true) by (rewrite Hpc; reflexivity).
  destruct (inv_mapped_point args s Hi Hm) as (_ & j & m & Hj & _).
  rewrite run_add. fold s.
  clearbody s. clear Hi Hm. revert s Hpc Hj.
  induction k as [|k IH]; intros s Hpc Hj.
  - cbn. rewrite app_nil_r. repeat split; assumption.
  - cbn [run].
    assert (Hstep : step h args s = goto L_idle [ESleep (Qmake 1 1)] s).
    { unfold step. rewrite Hpc, Hj. unfold step_self. rewrite Hpc. reflexivity. }
    rewrite Hstep.
    destruct (IH (goto L_idle [ESleep (Qmake 1 1)] s) eq_refl Hj)
      as (H1 & H2 & H3 & H4).
    split; [exact H1|]. split; [|split; assumption].
    rewrite H2. cbn [trace goto repeat]. rewrite <- app_assoc. reflexivity.
Qed.

Lemma idle_wait_only_sleeps_witness :
  trace (run example_host low_static_args (6 + 3) initial)
  = trace (run example_host low_static_args 6 initial)
    ++ [ESleep (Qmake 1 1); ESleep (Qmake 1 1); ESleep (Qmake 1 1)].
Proof.
  apply (idle_wait_only_sleeps example_host low_static_args 6 3). reflexivity.
Defined.

(** X11. SIGINT always ends the process, whenever it arrives: after the
    delivery the process has halted for good, and all the delivery added to
    the trace are the handler's messages and the unmapping: no read, no
    write, no mapping. *)
Theorem sigint_always_terminates (h : host) (args : Namespace) (n k : nat) :
  let s := run h args n initial in
  let s' := deliver_sigint s in
  (exists o, pc s' = L_halt o) /\
  run h args k s' = s' /\
  exists evs,
    trace s' = trace s ++ evs /\
    Forall (fun e => is_access e = false /\ is_mmap e = false) evs.
Proof.
  intros s s'. pose proof (inv_reachable h args n) as Hinv. fold s in Hinv.
  assert (Hcases :
    (exists o, pc s = L_halt o) \/
    (pc s = L_parse \/ (exists pct, pc s = L_construct pct) \/ pc s = L_signal) \/
    pc s = L_create \/ mapped_point (pc s) = true).
  { destruct (pc s) eqn:Hpc; cbn; eauto 6.
    unfold inv in Hinv. rewrite Hpc in Hinv. destruct Hinv. }
  assert (Hgoal :
    exists o evs, pc s' = L_halt o /\ trace s' = trace s ++ evs /\
      Forall (fun e => is_access e = false /\ is_mmap e = false) evs).
  { destruct Hcases as [[o Hpc] | [Hearly | [Hpc | Hm]]].
    - exists o, []. unfold s', deliver_sigint. rewrite Hpc, app_nil_r.
      repeat split; [exact Hpc|constructor].
    - destruct (deliver_sigint_early args s Hinv Hearly) as (_ & Hs').
      fold s' in Hs'. rewrite Hs'. eexists _, []. repeat split. constructor.
    - destruct (deliver_sigint_create args s Hinv Hpc) as (j & _ & _ & _ & Hs').
      fold s' in Hs'. rewrite Hs'. eexists _, _. repeat split.
      repeat constructor.
    - destruct (deliver_sigint_mapped args s Hinv Hm) as (j & _ & _ & Hs').
      fold s' in Hs'. rewrite Hs'. eexists _, _. repeat split.
      repeat constructor. }
  destruct Hgoal as (o & evs & Ho & Htr & Hev).
  split; [eauto|]. split; [apply (run_halt h args k s' o Ho)|eauto].
Qed.

(** X12. The [except KeyboardInterrupt] handlers of [random_access] and [run]
    (lines 76-77 and 107-108), for a caller that has not installed
    [signal_handler]: an interrupt inside the Dynamic loop or the Static wait
    falls through to the [cleanup] of line 110, which releases the region
    and lets the process end with status 0. *)
Theorem keyboard_interrupt_unwinds_to_cleanup (h : host) (args : Namespace)
    (s : state) (j : Jaws) (m : mmap) :
  sigint_handler s = false -> in_interrupt_guard (pc s) = true ->
  jaws_instance s = Some j -> live j m ->
  let s' := step h args (deliver_sigint s) in
  succeeded s' /\
  trace s' = trace s ++ [EMunmap (buffer_size j); EPrint "Memory buffer released."] /\
  jaws_instance s' = Some (set_buffer j None).
Proof.
  intros Hh Hg Hj Hl s'. subst s'.
  assert (Hd : deliver_sigint s = goto L_cleanup [] s).
  { unfold deliver_sigint, default_int_handler. rewrite Hh, Hg.
    destruct (pc s); try discriminate; reflexivity. }
  rewrite Hd. unfold step. cbn [pc goto jaws_instance]. rewrite Hj.
  cbn [step_self pc goto]. rewrite (cleanup_live j m Hl). cbn.
  rewrite app_nil_r. repeat split.
Qed.

Lemma keyboard_interrupt_unwinds_to_cleanup_witness :
  let s := {| pc := L_idle; jaws_instance := Some example_instance;
              sigint_handler := false; cursor := 0%nat; trace := [] |} in
  succeeded (step example_host low_static_args (deliver_sigint s)).
Proof.
  intros s.
  apply (keyboard_interrupt_unwinds_to_cleanup example_host low_static_args s
           example_instance example_region);
    try reflexivity.
  repeat split.
Defined.



Lemma round_aux_unsigned (mx ex : Z) (lx : location) :
  unsigned (binary_round_aux Float.prec Float.emax false mx ex lx).
Proof.
  unfold binary_round_aux.
  destruct (shr_fexp Float.prec Float.emax mx ex lx) as [mrs' e'].
  destruct (shr_fexp Float.prec Float.emax _ e' loc_Exact) as [mrs'' e''].
  destruct (shr_m mrs''); [reflexivity| |exact I].
  destruct (e'' <=? Float.emax - Float.prec); reflexivity.
Qed.

Lemma of_int_unsigned (n : Z) (f : spec_float) :
  0 <= n -> Float.of_int n = Ok f -> unsigned f.
Proof.
  intros Hn. unfold Float.of_int, binary_normalize.
  destruct n as [|p|p]; [intros [= <-]; reflexivity| |lia].
  unfold binary_round.
  destruct (shl_align p 0 _) as [mz ez].
  pose proof (round_aux_unsigned (Z.pos mz) ez loc_Exact) as Hu.
  destruct (binary_round_aux Float.prec Float.emax false (Z.pos mz) ez loc_Exact);
    intros [= <-]; exact Hu.
Qed.

Lemma SFmul_unsigned (x y : spec_float) :
  unsigned x -> unsigned y -> unsigned (SFmul Float.prec Float.emax x y).
Proof.
  destruct x as [sx|sx| |sx mx ex], y as [sy|sy| |sy my ey]; cbn;
    intros Hx Hy; subst; try reflexivity; try exact I.
  apply round_aux_unsigned.
Qed.

Lemma SFdiv_unsigned (x y : spec_float) :
  unsigned x -> unsigned y -> unsigned (SFdiv Float.prec Float.emax x y).
Proof.
  destruct x as [sx|sx| |sx mx ex], y as [sy|sy| |sy my ey]; cbn -[SFdiv_core_binary];
    intros Hx Hy; subst; try reflexivity; try exact I.
  destruct (SFdiv_core_binary Float.prec Float.emax (Z.pos mx) ex (Z.pos my) ey)
    as [[mz ez] lz].
  apply round_aux_unsigned.
Qed.

Lemma to_int_unsigned (f : spec_float) (v : Z) :
  unsigned f -> Float.to_int f = Ok v -> 0 <= v.
Proof.
  destruct f as [s|s| |s m e]; cbn; intros Hu; try discriminate.
  - intros [= <-]. lia.
  - subst s. intros [= <-].
    destruct (Z.ltb_spec e 0).
    + apply Z.div_pos; [lia|]. apply Z.pow_pos_nonneg; lia.
    + apply Z.mul_nonneg_nonneg; [lia|]. apply Z.pow_nonneg. lia.
Qed.

Lemma computed_buffer_size_multiple (pct total page bytes : Z) :
  0 <= pct -> 0 <= total -> 0 < page ->
  computed_buffer_size pct total page = Ok bytes ->
  0 <= bytes /\ (page | bytes).
Proof.
  intros Hpct Htotal Hpage. unfold computed_buffer_size, Float.int_truediv.
  cbn [Z.eqb].
  destruct (Float.of_int pct) as [fp|] eqn:Ep; [|discriminate].
  destruct (Float.of_int 100) as [fh|] eqn:Eh; [|discriminate].
  cbn [bind]. unfold Float.int_mul.
  destruct (Float.of_int total) as [ft|] eqn:Et; [|discriminate].
  cbn [bind].
  destruct (Float.to_int _) as [b0|] eqn:Eb; [|discriminate].
  cbn [bind]. destruct (Z.eqb_spec page 0); [lia|]. intros [= <-].
  assert (Hb0 : 0 <= b0).
  { apply (to_int_unsigned _ b0) in Eb; [exact Eb|].
    apply SFmul_unsigned; [apply (of_int_unsigned total); assumption|].
    apply SFdiv_unsigned;
      [apply (of_int_unsigned pct); assumption
      |apply (of_int_unsigned 100); [lia|assumption]]. }
  split; [|apply Z.divide_factor_r].
  apply Z.mul_nonneg_nonneg; [|lia]. apply Z.div_pos; lia.
Qed.

(** X1. The instance [Jaws.__init__] leaves behind, on any host with a
    non-negative memory size and a positive page size: nothing printed, no
    buffer yet, and a [buffer_size] that is a positive multiple of the page
    size, so at least one page. *)
Theorem constructed_size_invariant (h : host) (pct : Z) (st : bool)
    (evs : list event) (j : Jaws) :
  0 <= pct -> 0 <= total_memory h -> 0 < getpagesize h ->
  Jaws_init h pct st = (evs, Ok j) ->
  evs = [] /\ buffer j = None /\
  percentage j = pct /\ static_mode j = st /\ page_size j = getpagesize h /\
  (page_size j | buffer_size j) /\ page_size j <= buffer_size j.
Proof.
  intros Hpct Htotal Hpage. unfold Jaws_init.
  destruct (computed_buffer_size pct (total_memory h) (getpagesize h))
    as [bytes|e] eqn:Hc; [|discriminate].
  destruct (Z.eqb_spec bytes 0) as [|Hnz]; [discriminate|].
  intros [= <- <-]. cbn.
  destruct (computed_buffer_size_multiple _ _ _ _ Hpct Htotal Hpage Hc)
    as (Hb & Hdiv).
  repeat split; try assumption.
  apply Z.divide_pos_le; [lia|exact Hdiv].
Qed.

Lemma constructed_size_invariant_witness :
  exists j, Jaws_init example_host 30 false = ([], Ok j) /\
            page_size j <= buffer_size j.
Proof.
  eexists. split; [reflexivity|].
  apply (constructed_size_invariant example_host 30 false [] _); cbn; try lia.
  reflexivity.
Defined.

Lemma computed_buffer_size_exact (pct total page : Z) :
  pct = 30 \/ pct = 50 \/ pct = 75 -> 0 <= total < 2 ^ 51 -> 0 < page ->
  computed_buffer_size pct total page = Ok (total * pct / 100 / page * page).
Proof.
  intros Hpct Htotal Hpage.
  pose proof (tier_bytes pct total Hpct Htotal) as Hb.
  unfold computed_buffer_size.
  destruct (Float.int_truediv pct 100) as [frac|e]; [|discriminate].
  cbn [bind] in *.
  destruct (Float.int_mul total frac) as [prod|e]; [|discriminate].
  cbn [bind] in *. rewrite Hb. cbn [bind].
  destruct (Z.eqb_spec page 0); [lia|reflexivity].
Qed.

(** X2. When the zero-size error of [Jaws.__init__] strikes: for the three
    tiers and a memory below 2^51 bytes, construction ends in
    [sys.exit(1)] exactly when the tier's share of the memory is less than
    one page; otherwise it succeeds. *)
Theorem zero_size_iff_less_than_a_page (h : host) (pct : Z) (st : bool) :
  pct = 30 \/ pct = 50 \/ pct = 75 ->
  0 <= total_memory h < 2 ^ 51 -> 0 < getpagesize h ->
  (Jaws_init h pct st = ([EPrint zero_size_msg], Raise (SystemExit 1)) <->
   total_memory h * pct < 100 * getpagesize h) /\
  ((exists j, Jaws_init h pct st = ([], Ok j)) <->
   100 * getpagesize h <= total_memory h * pct).
Proof.
  intros Hpct Htotal Hpage. unfold Jaws_init.
  rewrite (computed_buffer_size_exact pct _ _ Hpct Htotal Hpage).
  set (M := total_memory h) in *. set (page := getpagesize h) in *.
  assert (Hk : 0 <= M * pct) by (destruct Hpct as [-> | [-> | ->]]; lia).
  pose proof (Z.div_mod (M * pct) 100 ltac:(lia)) as Hdm.
  pose proof (Z.mod_pos_bound (M * pct) 100 ltac:(lia)) as Hr.
  set (k := M * pct / 100) in *.
  pose proof (Z.div_mod k page ltac:(lia)) as Hdk.
  pose proof (Z.mod_pos_bound k page ltac:(lia)) as Hrk.
  set (q := k / page) in *.
  assert (Hq : 0 <= q) by (apply Z.div_pos; lia).
  assert (Hz : q * page = 0 <-> M * pct < 100 * page).
  { split.
    - intros Hq0. assert (q = 0) by nia. subst q. lia.
    - intros Hlt. assert (k < page) by lia.
      assert (q = 0) by nia. lia. }
  destruct (Z.eqb_spec (q * page) 0) as [E|E].
  - pose proof (proj1 Hz E) as Hlt. split.
    + split; [intros _; exact Hlt|intros _; reflexivity].
    + split; [intros (j & [=])|intros Hge; lia].
  - split.
    + split; [discriminate|intros Hlt; exfalso; apply E, Hz, Hlt].
    + split; [|intros _; eauto].
      intros _. destruct (Z_lt_le_dec (M * pct) (100 * page)); [|assumption].
      exfalso. apply E, Hz. assumption.
Qed.

Lemma zero_size_iff_less_than_a_page_witness :
  Jaws_init tiny_host 30 false = ([EPrint zero_size_msg], Raise (SystemExit 1)).
Proof.
  destruct (zero_size_iff_less_than_a_page tiny_host 30 false) as ((_ & H) & _);
    [tauto|cbn; lia|cbn; lia|].
  apply H. cbn. lia.
Defined.




